(** * Music-mood preference pages: a model of [script.js]

    The script is shared by three pages (preferences form, suggestions,
    profile).  This development embeds its storage helpers, the form
    validator, the suggestions player, the profile list and the
    auto-play handler, and proves properties of them.

    Conventions of the embedding:
    - a JavaScript string is a [string]: each character is one code unit
      below 256;
    - a JavaScript number is an integer [Z] (ids, lengths and indices are
      the only numbers the script computes with), of a magnitude that a
      double holds exactly;
    - a value that went through [JSON.parse] is a [json] tree; a property
      read that yields [undefined] is [None];
    - a call that can throw returns a [result];
    - [localStorage] is a finite map from keys to raw text. *)

From Stdlib Require Import ZArith String Ascii List Bool Lia Decimal DecimalString.
From Stdlib Require Import DecimalPos DecimalN DecimalZ.
From stdpp Require Import base option list gmap strings.

Import ListNotations.
Local Open Scope Z_scope.
Local Open Scope list_scope.

(** ** Exceptions *)

Inductive exn : Type :=
| SyntaxError
| TypeError.

Inductive result (A : Type) : Type :=
| Ok (a : A)
| Throw (e : exn).

Arguments Ok {A} a.
Arguments Throw {A} e.

Definition bind {A B : Type} (r : result A) (k : A -> result B) : result B :=
  match r with
  | Ok a => k a
  | Throw e => Throw e
  end.

Notation "x <- r ;; k" := (bind r (fun x => k))
  (at level 100, r at next level, k at level 200, right associativity).

(** ** JSON values, [JSON.stringify] and [JSON.parse]

    The script stores objects and arrays of objects whose properties
    are strings and integers.  The model of the two built-ins covers
    that and more, within these bounds: a number is an integer (a
    literal with a fraction or an exponent is refused); a string holds
    code units below 256 (a [\uXXXX] escape above that is refused); the
    properties of an object are kept in the order in which they were
    defined (keys that are array indices, which an engine lists first,
    do not occur in the records of the script). *)

Module JSON.

#[warnings="-register-all"]
Inductive json : Type :=
| JNull
| JBool (b : bool)
| JNum (n : Z)
| JStr (s : string)
| JArr (elems : list json)
| JObj (members : list (string * json)).

Definition chars (s : string) : list ascii := list_ascii_of_string s.

(** *** Serialisation *)

Fixpoint digits (d : uint) : list ascii :=
  match d with
  | Nil => []
  | D0 d => "0"%char :: digits d
  | D1 d => "1"%char :: digits d
  | D2 d => "2"%char :: digits d
  | D3 d => "3"%char :: digits d
  | D4 d => "4"%char :: digits d
  | D5 d => "5"%char :: digits d
  | D6 d => "6"%char :: digits d
  | D7 d => "7"%char :: digits d
  | D8 d => "8"%char :: digits d
  | D9 d => "9"%char :: digits d
  end.

(** The decimal digits of an integer, which is how a number of a
    magnitude up to 2^53 is written (the exponent notation starts at
    10^21). *)
Definition print_number (z : Z) : list ascii :=
  match Z.to_int z with
  | Pos d => digits d
  | Neg d => "-"%char :: digits d
  end.

Definition hex_digit (n : N) : ascii :=
  match n with
  | 0 => "0" | 1 => "1" | 2 => "2" | 3 => "3" | 4 => "4" | 5 => "5"
  | 6 => "6" | 7 => "7" | 8 => "8" | 9 => "9" | 10 => "a" | 11 => "b"
  | 12 => "c" | 13 => "d" | 14 => "e" | _ => "f"
  end%N%char.

(** One code unit inside a quoted string: the two-character escapes
    of JSON, [\u00XX] for the other control characters, itself
    otherwise. *)
Definition escape (c : ascii) : list ascii :=
  let n := N_of_ascii c in
  if (n =? 34)%N then ["\"%char; "034"%char]
  else if (n =? 92)%N then chars "\\"
  else if (n =? 8)%N then chars "\b"
  else if (n =? 12)%N then chars "\f"
  else if (n =? 10)%N then chars "\n"
  else if (n =? 13)%N then chars "\r"
  else if (n =? 9)%N then chars "\t"
  else if (n <? 32)%N then
    chars "\u00" ++ [hex_digit (n / 16); hex_digit (n mod 16)]
  else [c].

Definition quote (s : string) : list ascii :=
  "034"%char :: flat_map escape (chars s) ++ ["034"%char].

Fixpoint print (v : json) : list ascii :=
  match v with
  | JNull => chars "null"
  | JBool true => chars "true"
  | JBool false => chars "false"
  | JNum z => print_number z
  | JStr s => quote s
  | JArr l =>
      let fix elements (l : list json) : list ascii :=
        match l with
        | [] => []
        | [x] => print x
        | x :: r => print x ++ ","%char :: elements r
        end in
      "["%char :: elements l ++ ["]"%char]
  | JObj o =>
      let fix members (o : list (string * json)) : list ascii :=
        match o with
        | [] => []
        | [(k, x)] => quote k ++ ":"%char :: print x
        | (k, x) :: r => quote k ++ ":"%char :: print x ++ ","%char :: members r
        end in
      "{"%char :: members o ++ ["}"%char]
  end.

(** [JSON.stringify(v)] with no indentation. *)
Definition stringify (v : json) : string := string_of_list_ascii (print v).

(** *** Parsing *)

Definition is_ws (c : ascii) : bool :=
  match c with
  | " " | "009" | "010" | "013" => true
  | _ => false
  end%char.

Fixpoint skip_ws (cs : list ascii) : list ascii :=
  match cs with
  | c :: r => if is_ws c then skip_ws r else cs
  | [] => []
  end.

Fixpoint scan_digits (cs : list ascii) : uint * list ascii :=
  match cs with
  | "0"%char :: r => let '(d, r') := scan_digits r in (D0 d, r')
  | "1"%char :: r => let '(d, r') := scan_digits r in (D1 d, r')
  | "2"%char :: r => let '(d, r') := scan_digits r in (D2 d, r')
  | "3"%char :: r => let '(d, r') := scan_digits r in (D3 d, r')
  | "4"%char :: r => let '(d, r') := scan_digits r in (D4 d, r')
  | "5"%char :: r => let '(d, r') := scan_digits r in (D5 d, r')
  | "6"%char :: r => let '(d, r') := scan_digits r in (D6 d, r')
  | "7"%char :: r => let '(d, r') := scan_digits r in (D7 d, r')
  | "8"%char :: r => let '(d, r') := scan_digits r in (D8 d, r')
  | "9"%char :: r => let '(d, r') := scan_digits r in (D9 d, r')
  | _ => (Nil, cs)
  end.

(** The integer part of a JSON number: at least one digit and no
    leading zero.  A fraction or an exponent is outside the integers
    this model has, and is refused. *)
Definition parse_unsigned (cs : list ascii) : option (Z * list ascii) :=
  let '(d, r) := scan_digits cs in
  match d with
  | Nil => None
  | _ =>
      if uint_eq_dec (unorm d) d then
        match r with
        | "."%char :: _ | "e"%char :: _ | "E"%char :: _ => None
        | _ => Some (Z.of_uint d, r)
        end
      else None
  end.

Definition parse_number (cs : list ascii) : option (Z * list ascii) :=
  match cs with
  | "-"%char :: r =>
      match parse_unsigned r with
      | Some (z, r') => Some (- z, r')
      | None => None
      end
  | _ => parse_unsigned cs
  end.

Definition hex_value (c : ascii) : option N :=
  let n := N_of_ascii c in
  if ((48 <=? n) && (n <=? 57))%N then Some (n - 48)%N
  else if ((97 <=? n) && (n <=? 102))%N then Some (n - 87)%N
  else if ((65 <=? n) && (n <=? 70))%N then Some (n - 55)%N
  else None.

(** [\uXXXX]: only code units below 256 exist in this model. *)
Definition unicode_escape (a b c d : ascii) : option ascii :=
  match hex_value a, hex_value b, hex_value c, hex_value d with
  | Some 0%N, Some 0%N, Some h, Some l => Some (ascii_of_N (16 * h + l))
  | _, _, _, _ => None
  end.

(** The text after an opening quote, up to the closing quote. *)
Fixpoint parse_string (cs : list ascii) : option (list ascii * list ascii) :=
  match cs with
  | [] => None
  | "034"%char :: r => Some ([], r)
  | "\"%char :: e :: r =>
      let plain (c : ascii) (r : option (list ascii * list ascii)) :=
        match r with
        | Some (s, r') => Some (c :: s, r')
        | None => None
        end in
      match e with
      | "034"%char => plain "034"%char (parse_string r)
      | "\"%char => plain "\"%char (parse_string r)
      | "/"%char => plain "/"%char (parse_string r)
      | "b"%char => plain "008"%char (parse_string r)
      | "f"%char => plain "012"%char (parse_string r)
      | "n"%char => plain "010"%char (parse_string r)
      | "r"%char => plain "013"%char (parse_string r)
      | "t"%char => plain "009"%char (parse_string r)
      | "u"%char =>
          match r with
          | a :: b :: c :: d :: r' =>
              match unicode_escape a b c d with
              | Some u => plain u (parse_string r')
              | None => None
              end
          | _ => None
          end
      | _ => None
      end
  | c :: r =>
      if (N_of_ascii c <? 32)%N then None
      else
        match parse_string r with
        | Some (s, r') => Some (c :: s, r')
        | None => None
        end
  end.

(** Defining a property: a repeated key keeps its first position and
    takes the later value; a new key goes last. *)
Fixpoint obj_set (k : string) (v : json) (o : list (string * json))
  : list (string * json) :=
  match o with
  | [] => [(k, v)]
  | (k', v') :: r =>
      if String.eqb k k' then (k, v) :: r else (k', v') :: obj_set k v r
  end.

(** The text after the prefix [p], if the text starts with it. *)
Fixpoint strip_prefix (p cs : list ascii) : option (list ascii) :=
  match p, cs with
  | [], _ => Some cs
  | a :: p', c :: r => if Ascii.eqb a c then strip_prefix p' r else None
  | _ :: _, [] => None
  end.

(** What a parser answers: the value read and the text after it. *)
Definition parsed : Type := option (json * list ascii).

(** [null], [true], [false] or a number. *)
Definition parse_atom (cs : list ascii) : parsed :=
  match strip_prefix (chars "null") cs with
  | Some r => Some (JNull, r)
  | None =>
      match strip_prefix (chars "true") cs with
      | Some r => Some (JBool true, r)
      | None =>
          match strip_prefix (chars "false") cs with
          | Some r => Some (JBool false, r)
          | None =>
              match parse_number cs with
              | Some (z, r) => Some (JNum z, r)
              | None => None
              end
          end
      end
  end.

(** One level of the recursive descent.  [elements] and [members] read
    the rest of an array and of an object after the opening bracket;
    [value] reads one value. *)
Definition value_step (elements members : list ascii -> parsed)
    (cs : list ascii) : parsed :=
  match skip_ws cs with
  | "034"%char :: r =>
      match parse_string r with
      | Some (s, r') => Some (JStr (string_of_list_ascii s), r')
      | None => None
      end
  | "["%char :: r =>
      match skip_ws r with
      | "]"%char :: r' => Some (JArr [], r')
      | _ => elements r
      end
  | "{"%char :: r =>
      match skip_ws r with
      | "}"%char :: r' => Some (JObj [], r')
      | _ => members r
      end
  | cs' => parse_atom cs'
  end.

Definition elements_step (value : list ascii -> parsed)
    (elements : list ascii -> list json -> parsed)
    (cs : list ascii) (acc : list json) : parsed :=
  match value cs with
  | Some (v, r) =>
      match skip_ws r with
      | ","%char :: r' => elements r' (v :: acc)
      | "]"%char :: r' => Some (JArr (rev (v :: acc)), r')
      | _ => None
      end
  | None => None
  end.

Definition members_step (value : list ascii -> parsed)
    (members : list ascii -> list (string * json) -> parsed)
    (cs : list ascii) (acc : list (string * json)) : parsed :=
  match skip_ws cs with
  | "034"%char :: r =>
      match parse_string r with
      | Some (k, r1) =>
          match skip_ws r1 with
          | ":"%char :: r2 =>
              match value r2 with
              | Some (v, r3) =>
                  let acc' := obj_set (string_of_list_ascii k) v acc in
                  match skip_ws r3 with
                  | ","%char :: r4 => members r4 acc'
                  | "}"%char :: r4 => Some (JObj acc', r4)
                  | _ => None
                  end
              | None => None
              end
          | _ => None
          end
      | None => None
      end
  | _ => None
  end.

(** The descent, bounded by [fuel]: one unit per value and one per
    element or member. *)
Fixpoint parse_value (fuel : nat) (cs : list ascii) {struct fuel} : parsed :=
  match fuel with
  | O => None
  | S f =>
      value_step (fun r => parse_elements f r []) (fun r => parse_members f r []) cs
  end
with parse_elements (fuel : nat) (cs : list ascii) (acc : list json)
       {struct fuel} : parsed :=
  match fuel with
  | O => None
  | S f => elements_step (parse_value f) (parse_elements f) cs acc
  end
with parse_members (fuel : nat) (cs : list ascii) (acc : list (string * json))
       {struct fuel} : parsed :=
  match fuel with
  | O => None
  | S f => members_step (parse_value f) (parse_members f) cs acc
  end.

(** [JSON.parse(text)] within the bounds above: [None] stands for
    the SyntaxError it throws, and also for a well-formed text beyond
    the bounds (see [in_fragment] for the texts within).  The whole
    text must be one value, with optional white space around it. *)
Definition parse (text : string) : option json :=
  let cs := chars text in
  match parse_value (S (length cs)) cs with
  | Some (v, r) =>
      match skip_ws r with
      | [] => Some v
      | _ => None
      end
  | None => None
  end.

End JSON.

Import JSON.

(** ** JavaScript values as the script uses them *)

(** [Boolean(v)] for a parsed value. *)
Definition truthy (v : json) : bool :=
  match v with
  | JNull => false
  | JBool b => b
  | JNum n => negb (n =? 0)
  | JStr s => negb (String.eqb s "")
  | JArr _ | JObj _ => true
  end.

(** [Boolean(v)] where [None] is [undefined]. *)
Definition truthy_opt (o : option json) : bool :=
  match o with
  | Some v => truthy v
  | None => false
  end.

(** The own property [k] of an object, [undefined] if it has none.
    (An object lists a key once: see [obj_set].) *)
Fixpoint obj_get (k : string) (o : list (string * json)) : option json :=
  match o with
  | [] => None
  | (k', v) :: r => if String.eqb k k' then Some v else obj_get k r
  end.

(** [v.k] for the data properties the script reads ([id], [mood],
    [title], ...), none of which a built-in prototype defines: reading
    from [null] throws, an object answers with its own property, every
    other value with [undefined]. *)
Definition prop (v : json) (k : string) : result (option json) :=
  match v with
  | JNull => Throw TypeError
  | JObj o => Ok (obj_get k o)
  | _ => Ok None
  end.

(** [a === b] where [same] tells whether [a] and [b] were read from one
    and the same object: numbers, strings, booleans, [null] and
    [undefined] compare by value, arrays and objects by identity. *)
Definition strict_eq (same : bool) (a b : option json) : bool :=
  match a, b with
  | None, None => true
  | Some JNull, Some JNull => true
  | Some (JBool x), Some (JBool y) => Bool.eqb x y
  | Some (JNum x), Some (JNum y) => x =? y
  | Some (JStr x), Some (JStr y) => String.eqb x y
  | Some (JArr _), Some (JArr _) => same
  | Some (JObj _), Some (JObj _) => same
  | _, _ => false
  end.

(** *** Conversion to a string

    [String(v)] for a parsed value, as an assignment to [value] or a
    template makes it.  An object converts through its [toString] and
    then its [valueOf]; a parsed object with an own property [toString]
    hides the inherited function behind a value that cannot be called,
    and its [valueOf], own or inherited, yields no primitive: the
    conversion throws TypeError.  An array joins the conversions of its
    elements, [null] counting as the empty text. *)
Fixpoint to_string_throws (v : json) : bool :=
  match v with
  | JObj o => bool_decide (is_Some (obj_get "toString" o))
  | JArr l => existsb to_string_throws l
  | _ => false
  end.

(** The same for what a property read yielded: [undefined]
    converts. *)
Definition unconvertible (o : option json) : bool :=
  match o with
  | Some v => to_string_throws v
  | None => false
  end.

(** The conversion, for its exception only. *)
Definition ToString (o : option json) : result unit :=
  if unconvertible o then Throw TypeError else Ok tt.

(** [String(n)] for an integer. *)
Definition String_of_number (n : Z) : string :=
  string_of_list_ascii (print_number n).

(** White space and line terminators: what [trim] strips and [\s]
    matches, among the code units below 256. *)
Definition is_space (c : ascii) : bool :=
  match c with
  | "009" | "010" | "011" | "012" | "013" | " " | "160" => true
  | _ => false
  end%char.

Fixpoint trim_start (cs : list ascii) : list ascii :=
  match cs with
  | c :: r => if is_space c then trim_start r else cs
  | [] => []
  end.

(** [s.trim()] *)
Definition trim (s : string) : string :=
  string_of_list_ascii (rev (trim_start (rev (trim_start (chars s))))).

(** Regular expressions of the shape the script uses: a sequence of
    pieces between [^] and [$], each one atom or one atom under [+]. *)
Inductive atom : Type :=
| Lit (c : ascii)
| NonSpace.

Inductive piece : Type :=
| One (a : atom)
| OneOrMore (a : atom).

Definition atom_ok (a : atom) (c : ascii) : bool :=
  match a with
  | Lit c' => Ascii.eqb c' c
  | NonSpace => negb (is_space c)
  end.

Fixpoint match_here (ps : list piece) (cs : list ascii) : bool :=
  match ps with
  | [] => match cs with [] => true | _ => false end
  | One a :: ps' =>
      match cs with
      | c :: r => atom_ok a c && match_here ps' r
      | [] => false
      end
  | OneOrMore a :: ps' =>
      (fix more (cs : list ascii) : bool :=
         match cs with
         | c :: r => atom_ok a c && (match_here ps' r || more r)
         | [] => false
         end) cs
  end.

(** [re.test(s)] for an anchored expression without flags. *)
Definition test (re : list piece) (s : string) : bool :=
  match_here re (chars s).

(** ** The catalog *)

Module Song.
Record t : Type := mk {
  id : Z;
  title : string;
  artist : string;
  mood : string;
  url : string;
  length : Z
}.

(** The own properties of the object, in the order of the literal. *)
Definition fields (s : t) : list (string * json) :=
  [ ("id"%string, JNum (id s));
    ("title"%string, JStr (title s));
    ("artist"%string, JStr (artist s));
    ("mood"%string, JStr (mood s));
    ("url"%string, JStr (url s));
    ("length"%string, JNum (length s)) ].
End Song.

Definition SONGS : list Song.t :=
  [ Song.mk 1 "Calm Breeze" "Ocean Studio" "chill"
      "https://www.soundhelix.com/examples/mp3/SoundHelix-Song-1.mp3" 320;
    Song.mk 2 "Power Run" "Gym Beats" "workout"
      "https://www.soundhelix.com/examples/mp3/SoundHelix-Song-2.mp3" 240;
    Song.mk 3 "Neon Party" "Clubline" "party"
      "https://www.soundhelix.com/examples/mp3/SoundHelix-Song-3.mp3" 300;
    Song.mk 4 "Focus Flow" "StudyWave" "focus"
      "https://www.soundhelix.com/examples/mp3/SoundHelix-Song-4.mp3" 420;
    Song.mk 5 "Mellow Night" "Midnight" "chill"
      "https://www.soundhelix.com/examples/mp3/SoundHelix-Song-5.mp3" 360 ].

(** [l.findIndex(p)] *)
Fixpoint findIndex {A : Type} (p : A -> bool) (l : list A) : Z :=
  match l with
  | [] => -1
  | x :: r =>
      if p x then 0
      else let i := findIndex p r in if i =? -1 then -1 else i + 1
  end.

(** ** localStorage helpers *)

Module STORAGE_KEYS.
Definition USER : string := "mp_user".
Definition SAVED : string := "mp_saved_songs".
End STORAGE_KEYS.

Abbreviation LocalStorage := (gmap string string).

Definition saveToStorage (key : string) (value : json) (ls : LocalStorage)
  : LocalStorage :=
  <[key := stringify value]> ls.

(** [getItem] answers [null] for a missing key; [raw ? ... : fallback]
    takes the fallback for [null] and for the empty string. *)
Definition loadFromStorage (key : string) (fallback : json) (ls : LocalStorage)
  : result json :=
  match ls !! key with
  | Some raw =>
      if String.eqb raw "" then Ok fallback
      else
        match parse raw with
        | Some v => Ok v
        | None => Throw SyntaxError
        end
  | None => Ok fallback
  end.

(** ** Validation of the form *)

Record validation : Type := {
  ok : bool;
  message : option string
}.

Definition name_message : string := "Name must be at least 2 characters.".
Definition email_message : string := "Please enter a valid email.".
Definition mood_message : string := "Please pick a mood/type.".

Definition not_ok (m : string) : validation :=
  {| ok := false; message := Some m |}.

(** [/^\S+@\S+\.\S+$/] *)
Definition email_re : list piece :=
  [OneOrMore NonSpace; One (Lit "@"); OneOrMore NonSpace; One (Lit ".");
   OneOrMore NonSpace].

Definition validateForm (name email mood : string) : validation :=
  if String.eqb name "" || (Z.of_nat (String.length (trim name)) <? 2)
  then not_ok name_message
  else if String.eqb email "" || negb (test email_re email)
  then not_ok email_message
  else if String.eqb mood "" then not_ok mood_message
  else {| ok := true; message := None |}.

(** ** Preferences page: the submit handler

    [now_iso] is the reading of [new Date().toISOString()].  The handler
    answers with the alert it raised, or with the storage it wrote
    before navigating to the suggestions page. *)

Definition user_record (name email mood now_iso : string) : json :=
  JObj [ ("name"%string, JStr name); ("email"%string, JStr email);
         ("mood"%string, JStr mood); ("savedAt"%string, JStr now_iso) ].

Definition submitPrefs (name_value email_value mood_value now_iso : string)
    (ls : LocalStorage) : string + LocalStorage :=
  let name := trim name_value in
  let email := trim email_value in
  let mood := mood_value in
  let check := validateForm name email mood in
  if negb (ok check) then inl (default ""%string (message check))
  else inr (saveToStorage STORAGE_KEYS.USER (user_record name email mood now_iso) ls).

(** ** Suggestions page *)

(** The text of the [#now] element. *)
Inductive NowText : Type :=
| NowBlank
| NowPlaying (title artist : string)
| NowPlayingTitle (title : string).

(** The [#audio] element: its source and how often [play()] was
    called on it.  A rejected [play()] promise is caught by the script
    and changes nothing. *)
Record Audio : Type := {
  src : string;
  plays : nat
}.

(** The page as [initSuggestionsPage] sets it up and its handlers
    change it: the player index [currentIndex], the playback element,
    the now-playing text and the songs listed in [#songs], one entry
    with a Play and a Save button per song.  The page has the elements
    the function looks up.  The volume, the greeting, the mood counts
    written to the console and the tips fetched from the network have
    no part in what follows and are left out. *)
Record Suggestions : Type := {
  currentIndex : Z;
  audio : Audio;
  now : NowText;
  songs : list Song.t
}.

(** [user && user.mood ? SONGS.filter(s => s.mood === user.mood) : SONGS.slice()] *)
Definition chosen_songs (user : json) : result (list Song.t) :=
  if truthy user then
    user_mood <- prop user "mood" ;;
    if truthy_opt user_mood
    then Ok (List.filter
               (fun s => strict_eq false (Some (JStr (Song.mood s))) user_mood)
               SONGS)
    else Ok SONGS
  else Ok SONGS.

Definition initSuggestionsPage (audio0 : Audio) (now0 : NowText)
    (ls : LocalStorage) : result Suggestions :=
  user <- loadFromStorage STORAGE_KEYS.USER JNull ls ;;
  chosen <- chosen_songs user ;;
  Ok {| currentIndex := -1; audio := audio0; now := now0; songs := chosen |}.

Definition playSongAtIndex (idx : Z) (st : Suggestions) : Suggestions :=
  if (idx <? 0) || (idx >=? Z.of_nat (List.length SONGS)) then st
  else
    match SONGS !! Z.to_nat idx with
    | Some song =>
        {| currentIndex := currentIndex st;
           audio := {| src := Song.url song; plays := S (plays (audio st)) |};
           now := NowPlaying (Song.title song) (Song.artist song);
           songs := songs st |}
    | None => st
    end.

Definition set_currentIndex (i : Z) (st : Suggestions) : Suggestions :=
  {| currentIndex := i; audio := audio st; now := now st; songs := songs st |}.

(** [%] is the remainder of truncated division. *)
Definition changeTrack (dir : Z) (st : Suggestions) : Suggestions :=
  let i :=
    if currentIndex st =? -1 then 0
    else Z.rem (currentIndex st + dir + Z.of_nat (List.length SONGS))
               (Z.of_nat (List.length SONGS)) in
  playSongAtIndex i (set_currentIndex i st).

(** Click on the Play button of a listed song. *)
Definition clickPlay (song : Song.t) (st : Suggestions) : Suggestions :=
  let i := findIndex (fun x => Song.id x =? Song.id song) SONGS in
  playSongAtIndex i (set_currentIndex i st).

(** The [ended] signal of the playback element. *)
Definition onEnded (st : Suggestions) : Suggestions := changeTrack 1 st.

(** [l.some(f)]: stops at the first element [f] accepts. *)
Fixpoint array_some (f : json -> result bool) (l : list json) : result bool :=
  match l with
  | [] => Ok false
  | x :: r => b <- f x ;; if b then Ok true else array_some f r
  end.

(** [{ ...song, savedAt: now_iso }] *)
Definition toSave (song : Song.t) (now_iso : string) : json :=
  JObj (obj_set "savedAt" (JStr now_iso) (Song.fields song)).

Definition saveSong (song : Song.t) (now_iso : string) (ls : LocalStorage)
  : result LocalStorage :=
  saved <- loadFromStorage STORAGE_KEYS.SAVED (JArr []) ls ;;
  match saved with
  | JArr l =>
      dup <- array_some
               (fun s => i <- prop s "id" ;;
                         Ok (strict_eq false i (Some (JNum (Song.id song))))) l ;;
      if dup then Ok ls
      else Ok (saveToStorage STORAGE_KEYS.SAVED (JArr (l ++ [toSave song now_iso])) ls)
  | _ => Throw TypeError
  end.

(** ** Profile page *)

(** One [<li>] of [#savedList]: what the template shows, and what the
    two click handlers close over (the element [s], its position in the
    array, and the array [saved] that was rendered).  The template
    converts the five values to strings and is assigned as HTML: the
    row is this one, with its two buttons, when the values have no
    character that is markup, as the fields of the Catalog songs. *)
Record SavedItem : Type := {
  item_title : option json;
  item_artist : option json;
  item_mood : option json;
  item_url : option json;
  item_id : option json;
  item_s : json;
  item_index : nat;
  item_saved : list json
}.

Inductive SavedView : Type :=
| Placeholder
| Items (lis : list SavedItem).

Definition render_item (saved : list json) (i : nat) (s : json)
  : result SavedItem :=
  t <- prop s "title" ;;
  t_shown <- ToString t ;;
  a <- prop s "artist" ;;
  a_shown <- ToString a ;;
  m <- prop s "mood" ;;
  m_shown <- ToString m ;;
  u <- prop s "url" ;;
  u_shown <- ToString u ;;
  d <- prop s "id" ;;
  d_shown <- ToString d ;;
  Ok {| item_title := t; item_artist := a; item_mood := m; item_url := u;
        item_id := d; item_s := s; item_index := i; item_saved := saved |}.

(** [l.map(f)] with the index, for an [f] that can throw. *)
Fixpoint array_map {A : Type} (f : nat -> json -> result A) (i : nat)
    (l : list json) : result (list A) :=
  match l with
  | [] => Ok []
  | x :: r => y <- f i x ;; ys <- array_map f (S i) r ;; Ok (y :: ys)
  end.

(** A value that is not an array has no [map]; it gets as far as the
    empty-state branch only when its [length] is [0]. *)
Definition renderSavedSongs (ls : LocalStorage) : result SavedView :=
  saved <- loadFromStorage STORAGE_KEYS.SAVED (JArr []) ls ;;
  match saved with
  | JArr l =>
      if Z.of_nat (List.length l) =? 0 then Ok Placeholder
      else lis <- array_map (render_item l) 0%nat l ;; Ok (Items lis)
  | JStr s => if String.eqb s "" then Ok Placeholder else Throw TypeError
  | JObj o =>
      if strict_eq false (obj_get "length" o) (Some (JNum 0)) then Ok Placeholder
      else Throw TypeError
  | _ => Throw TypeError
  end.

(** [l.filter(f)] with the index, for an [f] that can throw. *)
Fixpoint array_filter (f : nat -> json -> result bool) (i : nat)
    (l : list json) : result (list json) :=
  match l with
  | [] => Ok []
  | x :: r =>
      b <- f i x ;; ys <- array_filter f (S i) r ;;
      Ok (if b then x :: ys else ys)
  end.

(** Click on Remove: [saved.filter(x => x.id !== s.id)], persist,
    render again. *)
Definition clickRemove (li : SavedItem) (ls : LocalStorage)
  : result (LocalStorage * SavedView) :=
  remaining <- array_filter
                 (fun j x =>
                    xi <- prop x "id" ;;
                    si <- prop (item_s li) "id" ;;
                    Ok (negb (strict_eq (Nat.eqb j (item_index li)) xi si)))
                 0%nat (item_saved li) ;;
  let ls' := saveToStorage STORAGE_KEYS.SAVED (JArr remaining) ls in
  view <- renderSavedSongs ls' ;;
  Ok (ls', view).

(** Click on the clear-all control. *)
Definition clickClear (ls : LocalStorage) : result (LocalStorage * SavedView) :=
  let ls' := delete STORAGE_KEYS.SAVED ls in
  view <- renderSavedSongs ls' ;;
  Ok (ls', view).

(** Click on Play of a saved song: the address navigated to, when the
    id is a number. *)
Definition play_link (id : Z) : string :=
  ("suggestions.html?play=" ++ String_of_number id)%string.

(** ** Auto-play from the link *)

(** What the handler can reach in the document: [getElementById]
    answers [null] for an element the page does not have. *)
Record Dom : Type := {
  dom_audio : option Audio;
  dom_now : option NowText
}.

Definition attemptPlay (playId : string) (dom : Dom) : Dom :=
  let idx := findIndex (fun s => String.eqb (String_of_number (Song.id s)) playId)
               SONGS in
  if negb (idx =? -1) then
    match dom_audio dom, SONGS !! Z.to_nat idx with
    | Some audioEl, Some song =>
        {| dom_audio := Some {| src := Song.url song; plays := S (plays audioEl) |};
           dom_now :=
             match dom_now dom with
             | Some _ => Some (NowPlayingTitle (Song.title song))
             | None => None
             end |}
    | _, _ => dom
    end
  else dom.

(** [search] is [window.location.search] and [play_param] what
    [new URLSearchParams(search).get("play")] answers.  The result is
    the id the delayed attempt was scheduled for, if any. *)
Definition checkAutoPlayOnLoad (search : string) (play_param : option string)
  : option string :=
  if String.eqb search "" then None
  else
    match play_param with
    | Some playId => if String.eqb playId "" then None else Some playId
    | None => None
    end.

(** The document once the delay has passed. *)
Definition autoPlay (search : string) (play_param : option string) (dom : Dom)
  : Dom :=
  match checkAutoPlayOnLoad search play_param with
  | Some playId => attemptPlay playId dom
  | None => dom
  end.

Definition suggestions_dom (st : Suggestions) : Dom :=
  {| dom_audio := Some (audio st); dom_now := Some (now st) |}.

(** ** The saved list as the data model has it *)

Record SavedSong : Type := {
  saved_song : Song.t;
  savedAt : string
}.

Definition saved_id (e : SavedSong) : Z := Song.id (saved_song e).

Definition saved_entry (e : SavedSong) : json :=
  toSave (saved_song e) (savedAt e).

Definition saved_array (l : list SavedSong) : json :=
  JArr (map saved_entry l).

(** The saved list that a load of the saved-songs key yields. *)
Definition persisted (ls : LocalStorage) (l : list SavedSong) : Prop :=
  loadFromStorage STORAGE_KEYS.SAVED (JArr []) ls = Ok (saved_array l).

(** The stored entries that the rows of a rendered list were made
    from, in order.  What a row shows of its entry is [shows], further
    down. *)
Definition displayed (view : SavedView) : list json :=
  match view with
  | Placeholder => []
  | Items lis => map item_s lis
  end.

(** The entries [renderSavedSongs] builds for a saved list: [saved] is
    the whole array and [i] the position of the first entry. *)
Fixpoint saved_items (saved : list json) (i : nat) (l : list SavedSong)
  : list SavedItem :=
  match l with
  | [] => []
  | e :: r =>
      {| item_title := Some (JStr (Song.title (saved_song e)));
         item_artist := Some (JStr (Song.artist (saved_song e)));
         item_mood := Some (JStr (Song.mood (saved_song e)));
         item_url := Some (JStr (Song.url (saved_song e)));
         item_id := Some (JNum (saved_id e));
         item_s := saved_entry e;
         item_index := i;
         item_saved := saved |} :: saved_items saved (S i) r
  end.

(** The saved list without the entries of one id. *)
Definition without (id : Z) (l : list SavedSong) : list SavedSong :=
  List.filter (fun e => negb (saved_id e =? id)) l.

(** A storage with two saved songs. *)
Definition saved_neon : SavedSong :=
  {| saved_song := Song.mk 3 "Neon Party" "Clubline" "party"
       "https://www.soundhelix.com/examples/mp3/SoundHelix-Song-3.mp3" 300;
     savedAt := "2024-05-01T10:00:00.000Z" |}.

Definition saved_calm : SavedSong :=
  {| saved_song := Song.mk 1 "Calm Breeze" "Ocean Studio" "chill"
       "https://www.soundhelix.com/examples/mp3/SoundHelix-Song-1.mp3" 320;
     savedAt := "2024-05-01T10:05:00.000Z" |}.

Definition two_saved : LocalStorage :=
  saveToStorage STORAGE_KEYS.SAVED (saved_array [saved_neon; saved_calm]) ∅.

(** ** What can happen to the storage

    One step is one handler that writes: a successful submit of the
    form, a click on Save, on Remove of a rendered entry, or on the
    clear-all control. *)
Inductive step : LocalStorage -> LocalStorage -> Prop :=
| step_submit name email mood now_iso ls ls' :
    submitPrefs name email mood now_iso ls = inr ls' -> step ls ls'
| step_save song now_iso ls ls' :
    saveSong song now_iso ls = Ok ls' -> step ls ls'
| step_remove ls lis li ls' view :
    renderSavedSongs ls = Ok (Items lis) -> In li lis ->
    clickRemove li ls = Ok (ls', view) -> step ls ls'
| step_clear ls ls' view :
    clickClear ls = Ok (ls', view) -> step ls ls'.

(** Storage in which nothing was saved yet, and what the handlers can
    make of it. *)
Inductive reachable : LocalStorage -> Prop :=
| reach_fresh ls : ls !! STORAGE_KEYS.SAVED = None -> reachable ls
| reach_step ls ls' : reachable ls -> step ls ls' -> reachable ls'.

(** ** Measures and well-formedness of JSON values *)

Fixpoint size (v : json) : nat :=
  match v with
  | JArr l =>
      S ((fix size_elems (l : list json) : nat :=
            match l with
            | [] => O
            | x :: r => S (size x + size_elems r)
            end) l)
  | JObj o =>
      S ((fix size_members (o : list (string * json)) : nat :=
            match o with
            | [] => O
            | (_, x) :: r => S (size x + size_members r)
            end) o)
  | _ => 1%nat
  end.

Definition size_elems (l : list json) : nat :=
  fold_right (fun x n => S (size x + n)) O l.

Definition size_members (o : list (string * json)) : nat :=
  fold_right (fun kx n => S (size (snd kx) + n)) O o.

(** No object lists a key twice. *)
Fixpoint canonical (v : json) : Prop :=
  match v with
  | JArr l =>
      (fix all (l : list json) : Prop :=
         match l with
         | [] => True
         | x :: r => canonical x /\ all r
         end) l
  | JObj o =>
      NoDup (map fst o) /\
      (fix all (o : list (string * json)) : Prop :=
         match o with
         | [] => True
         | (_, x) :: r => canonical x /\ all r
         end) o
  | _ => True
  end.

Fixpoint print_elements (l : list json) : list ascii :=
  match l with
  | [] => []
  | [x] => print x
  | x :: r => print x ++ ","%char :: print_elements r
  end.

Fixpoint print_members (o : list (string * json)) : list ascii :=
  match o with
  | [] => []
  | [(k, x)] => quote k ++ ":"%char :: print x
  | (k, x) :: r => quote k ++ ":"%char :: print x ++ ","%char :: print_members r
  end.

Fixpoint all_canonical (l : list json) : Prop :=
  match l with
  | [] => True
  | x :: r => canonical x /\ all_canonical r
  end.

Fixpoint members_canonical (o : list (string * json)) : Prop :=
  match o with
  | [] => True
  | (_, x) :: r => canonical x /\ members_canonical r
  end.

(** The first character of a printed value. *)
Definition value_head (c : ascii) : Prop :=
  In c (chars "ntf[{-0123456789") \/ c = "034"%char.

(** The text after a printed value inside a larger one, or nothing. *)
Definition delimited (cs : list ascii) : Prop :=
  match cs with
  | [] => True
  | c :: _ => c = ","%char \/ c = "]"%char \/ c = "}"%char
  end.

(** ** What the user can do on the suggestions page

    One play action is a click on Play of a listed song, on Prev, on
    Next, or the end of the running track. *)
Inductive play_step : Suggestions -> Suggestions -> Prop :=
| play_click song st : In song (songs st) -> play_step st (clickPlay song st)
| play_prev st : play_step st (changeTrack (-1) st)
| play_next st : play_step st (changeTrack 1 st)
| play_ended st : play_step st (onEnded st).

(** A playback element on which nothing was loaded yet. *)
Definition silent : Audio := {| src := ""; plays := 0 |}.

(** A suggestions page as [initSuggestionsPage] leaves it, and then
    any number of play actions. *)
Definition page_of (ls : LocalStorage) (st : Suggestions) : Prop :=
  exists audio0 now0 st0,
    initSuggestionsPage audio0 now0 ls = Ok st0 /\ rtc play_step st0 st.

(** Preferences with the mood [party], which one song of the catalog
    has. *)
Definition party_prefs : LocalStorage :=
  saveToStorage STORAGE_KEYS.USER
    (user_record "Al" "a@b.com" "party" "2024-05-01T10:00:00.000Z") ∅.

(** Preferences with a mood that no song of the catalog has. *)
Definition jazz_prefs : LocalStorage :=
  saveToStorage STORAGE_KEYS.USER
    (user_record "Al" "a@b.com" "jazz" "2024-05-01T10:00:00.000Z") ∅.

Definition neon_party : Song.t :=
  Song.mk 3 "Neon Party" "Clubline" "party"
    "https://www.soundhelix.com/examples/mp3/SoundHelix-Song-3.mp3" 300.

(** The page those preferences give: one song is listed. *)
Definition party_page : Suggestions :=
  {| currentIndex := -1; audio := silent; now := NowBlank;
     songs := [neon_party] |}.

(** ** What the fields of the form are checked against *)

(** The words an expression matches from its first to its last
    character. *)
Fixpoint lang (ps : list piece) (cs : list ascii) : Prop :=
  match ps with
  | [] => cs = []
  | One a :: ps' => exists c r, cs = c :: r /\ atom_ok a c = true /\ lang ps' r
  | OneOrMore a :: ps' =>
      exists u r,
        u <> [] /\ Forall (fun c => atom_ok a c = true) u /\ cs = u ++ r /\
        lang ps' r
  end.

(** One or more characters, none of them white space. *)
Definition word (u : list ascii) : Prop :=
  u <> [] /\ Forall (fun c => is_space c = false) u.

(** word [@] word [.] word *)
Definition email_shape (email : string) : Prop :=
  exists a b c,
    chars email = a ++ "@"%char :: b ++ "."%char :: c /\
    word a /\ word b /\ word c.

(** Empty, or shorter than two characters once trimmed. *)
Definition name_short (name : string) : Prop :=
  name = ""%string \/ (String.length (trim name) < 2)%nat.

(** ** The stored texts on which [parse] stands for [JSON.parse]

    [JSON.parse] reads more than [parse] does: numbers with a fraction
    or an exponent, and [\uXXXX] escapes above [00FF].  It rounds an
    integer that a double cannot hold, reads [-0] as the negative zero,
    and lists the properties whose keys are array indices before the
    others.  On a text with none of these, [parse] answers as
    [JSON.parse] does: the value, or [None] for its SyntaxError.  One
    pass over the text, which does not depend on the parser, tells
    whether any of them occurs: a run of digits followed by [.], [e] or
    [E], a run above 2^53, a run [0] after a minus sign, an escape
    [\uXXXX] above [00FF], or a string of digits followed by a colon. *)

(** Where the pass is: outside the strings, with the sign and the
    value of the run of digits it is reading; inside a string, knowing
    whether it has characters and whether all of them are digits; after
    a backslash; inside [\uXXXX], with the number of digits still to
    read and the value read. *)
Inductive scan : Type :=
| Outside (minus : bool) (run : option N)
| Inside (some_char digits_only : bool)
| Escaped (digits_only : bool)
| Hex (more : nat) (acc : N) (digits_only : bool).

Definition digit_value (c : ascii) : option N :=
  let n := N_of_ascii c in
  if ((48 <=? n) && (n <=? 57))%N then Some (n - 48)%N else None.

(** A run of digits that a double holds exactly and that is not the
    negative zero. *)
Definition run_ok (minus : bool) (n : N) : bool :=
  ((n <=? 9007199254740992) && negb (minus && (n =? 0)))%N.

Definition fraction_or_exponent (c : ascii) : bool :=
  match c with
  | "." | "e" | "E" => true
  | _ => false
  end%char.

Definition starts_colon (cs : list ascii) : bool :=
  match skip_ws cs with
  | ":"%char :: _ => true
  | _ => false
  end.

Fixpoint scan_text (st : scan) (cs : list ascii) : bool :=
  match cs with
  | [] =>
      match st with
      | Outside minus (Some n) => run_ok minus n
      | _ => true
      end
  | c :: r =>
      match st with
      | Outside minus run =>
          match digit_value c with
          | Some d =>
              scan_text (Outside minus (Some (10 * default 0 run + d)))%N r
          | None =>
              match run with
              | Some n => run_ok minus n && negb (fraction_or_exponent c)
              | None => true
              end
              && (if Ascii.eqb c "034" then scan_text (Inside false true) r
                  else scan_text (Outside (Ascii.eqb c "-") None) r)
          end
      | Inside some_char digits_only =>
          if Ascii.eqb c "034" then
            negb (some_char && digits_only && starts_colon r)
            && scan_text (Outside false None) r
          else if Ascii.eqb c "\" then scan_text (Escaped digits_only) r
          else
            scan_text (Inside true (digits_only && bool_decide (is_Some (digit_value c)))) r
      | Escaped digits_only =>
          if Ascii.eqb c "u" then scan_text (Hex 4 0 digits_only) r
          else scan_text (Inside true false) r
      | Hex more acc digits_only =>
          match hex_value c with
          | Some h =>
              let acc' := (16 * acc + h)%N in
              match more with
              | S (S k) => scan_text (Hex (S k) acc' digits_only) r
              | _ =>
                  (acc' <? 256)%N
                  && scan_text
                       (Inside true
                          (digits_only && (48 <=? acc')%N && (acc' <=? 57)%N)) r
              end
          | None => true
          end
      end
  end.

(** The text has nothing that [parse] and [JSON.parse] read
    differently. *)
Definition in_fragment (raw : string) : bool :=
  scan_text (Outside false None) (chars raw).

(** ** What the profile page shows of the saved list *)

(** A row for a saved song: title, artist and mood in its text, the
    address on its Play button, the id on its Remove button, and the
    stored entry in the closures of its handlers. *)
Definition shows (li : SavedItem) (e : SavedSong) : Prop :=
  item_title li = Some (JStr (Song.title (saved_song e))) /\
  item_artist li = Some (JStr (Song.artist (saved_song e))) /\
  item_mood li = Some (JStr (Song.mood (saved_song e))) /\
  item_url li = Some (JStr (Song.url (saved_song e))) /\
  item_id li = Some (JNum (saved_id e)) /\
  item_s li = saved_entry e.

(** The page shows a saved list: the placeholder for the empty list,
    else one row per entry, in the order of the list. *)
Definition view_shows (view : SavedView) (l : list SavedSong) : Prop :=
  match view with
  | Placeholder => l = []
  | Items lis => l <> [] /\ Forall2 shows lis l
  end.

(** A list of saved Catalog songs. *)
Definition of_catalog (l : list SavedSong) : Prop :=
  Forall (fun e => In (saved_song e) SONGS) l.

(** * Further parts of the script *)

(** ** Preferences page: filling the form from the storage *)

(** The text of the [#notice] element. *)
Inductive Notice : Type :=
| NoticeHidden
| WelcomeBack (name mood : option json).

(** The three fields, as the values the script assigns to them, and
    the notice. *)
Record PrefForm : Type := {
  name_field : json;
  email_field : json;
  mood_field : json;
  notice : Notice
}.

(** [v || ""] *)
Definition or_empty (o : option json) : json :=
  match o with
  | Some v => if truthy v then v else JStr ""
  | None => JStr ""
  end.

(** The first lines of the form's part of the load handler: with
    preferences stored, the fields take their values and the notice
    welcomes the user back, on a page that has the three fields and
    the notice.  Each assignment to [value] converts what is assigned
    to a string, and so does the template of the notice for the name
    and the mood. *)
Definition prefill (form : PrefForm) (ls : LocalStorage) : result PrefForm :=
  stored <- loadFromStorage STORAGE_KEYS.USER JNull ls ;;
  if truthy stored then
    n <- prop stored "name" ;;
    n_set <- ToString (Some (or_empty n)) ;;
    e <- prop stored "email" ;;
    e_set <- ToString (Some (or_empty e)) ;;
    m <- prop stored "mood" ;;
    m_set <- ToString (Some (or_empty m)) ;;
    n_shown <- ToString n ;;
    m_shown <- ToString m ;;
    Ok {| name_field := or_empty n; email_field := or_empty e;
          mood_field := or_empty m; notice := WelcomeBack n m |}
  else Ok form.

(** ** The handler of [DOMContentLoaded]

    A page has the form, the list of suggestions or the list of saved
    songs.  [initSuggestionsPage] is an [async] function: what it
    throws rejects its promise and does not stop the handler. *)
Record Document : Type := {
  doc_prefForm : option PrefForm;
  doc_songs : bool;
  doc_savedList : bool
}.

(** What the handler has set up when it returns: the form with its
    submit listener, the outcome of [initSuggestionsPage], the saved
    list with the listener of the clear-all control. *)
Record Loaded : Type := {
  loaded_form : option PrefForm;
  loaded_suggestions : option (result Suggestions);
  loaded_saved : option SavedView
}.

Definition onDOMContentLoaded (doc : Document) (audio0 : Audio) (now0 : NowText)
    (ls : LocalStorage) : result Loaded :=
  form <- match doc_prefForm doc with
          | Some form0 => form <- prefill form0 ls ;; Ok (Some form)
          | None => Ok None
          end ;;
  let suggestions :=
    if doc_songs doc then Some (initSuggestionsPage audio0 now0 ls) else None in
  saved <- (if doc_savedList doc
            then view <- renderSavedSongs ls ;; Ok (Some view)
            else Ok None) ;;
  Ok {| loaded_form := form; loaded_suggestions := suggestions;
        loaded_saved := saved |}.

(** Storage that holds neither record, and what the handlers can make
    of it. *)
Inductive produced : LocalStorage -> Prop :=
| produced_clean ls :
    ls !! STORAGE_KEYS.USER = None -> ls !! STORAGE_KEYS.SAVED = None ->
    produced ls
| produced_step ls ls' : produced ls -> step ls ls' -> produced ls'.

(** What the handlers leave under the two keys. *)
Definition well_kept (ls : LocalStorage) : Prop :=
  (ls !! STORAGE_KEYS.USER = None \/
   exists name email mood now_iso,
     ls !! STORAGE_KEYS.USER = Some (stringify (user_record name email mood now_iso))) /\
  exists l, persisted ls l /\ NoDup (map saved_id l).

(** ** The mood counts written to the console *)

(** The properties every object inherits from [Object.prototype]. *)
Definition Object_prototype_names : list string :=
  [ "constructor"; "hasOwnProperty"; "isPrototypeOf"; "propertyIsEnumerable";
    "toLocaleString"; "toString"; "valueOf"; "__proto__";
    "__defineGetter__"; "__defineSetter__"; "__lookupGetter__";
    "__lookupSetter__" ]%string.

(** An own property of the accumulator: a count, or the text that
    adding 1 to an inherited function or to such a text gives. *)
Inductive Tally : Type :=
| Count (n : Z)
| NotACount.

(** [acc[s.mood] = (acc[s.mood] || 0) + 1] on an accumulator that
    started as [{}]: an assignment to [__proto__] of a value that is no
    object is ignored. *)
Definition count_mood (acc : gmap string Tally) (s : Song.t) : gmap string Tally :=
  let m := Song.mood s in
  if String.eqb m "__proto__" then acc
  else
    match acc !! m with
    | Some (Count n) => <[m := Count ((if n =? 0 then 0 else n) + 1)]> acc
    | Some NotACount => <[m := NotACount]> acc
    | None =>
        if existsb (String.eqb m) Object_prototype_names
        then <[m := NotACount]> acc
        else <[m := Count (0 + 1)]> acc
    end.

(** [l.reduce(f, {})] *)
Definition mood_counts (l : list Song.t) : gmap string Tally :=
  fold_left count_mood l ∅.

Definition moodCounts : gmap string Tally := mood_counts SONGS.

(** How many songs of a list have a mood. *)
Definition songs_of_mood (m : string) (l : list Song.t) : Z :=
  Z.of_nat (List.length (List.filter (fun s => String.eqb (Song.mood s) m) l)).

(** ** The tips *)

(** What [fetch] and [res.json()] come to: the request fails, or there
    is a response with its [ok] flag and the value of its body ([None]
    when the body is no JSON text). *)
Inductive Fetched : Type :=
| NetworkFailure
| Answer (res_ok : bool) (data : option json).

(** What [fetchTips] throws again to its caller: the rejection of
    [fetch], its own error for a response that is not ok, the rejection
    of [res.json()], or what [filter] and [map] threw. *)
Inductive TipsError : Type :=
| FetchRejected
| ResponseNotOk
| BodyRejected
| Thrown (e : exn).

(** One tip: the three properties taken from a post. *)
Record Tip : Type := {
  tip_id : option json;
  tip_title : option json;
  tip_body : option json
}.

(** [p.id % 2 === 0].  Reading [id] from [null] throws.  The
    remainder converts the id to a number: [undefined] gives NaN,
    [null] and [false] give 0, [true] gives 1, an object gives NaN
    unless its conversion throws.  What a string or an array converts
    to is not modelled: the answer is [None]. *)
Definition even_id (p : json) : option (result bool) :=
  match p with
  | JNull => Some (Throw TypeError)
  | JObj o =>
      match obj_get "id" o with
      | None => Some (Ok false)
      | Some JNull => Some (Ok true)
      | Some (JBool b) => Some (Ok (negb b))
      | Some (JNum n) => Some (Ok (Z.rem n 2 =? 0))
      | Some (JObj i) =>
          Some (if to_string_throws (JObj i) then Throw TypeError else Ok false)
      | Some (JArr l) =>
          if to_string_throws (JArr l) then Some (Throw TypeError) else None
      | Some (JStr _) => None
      end
  | _ => Some (Ok false)
  end.

(** [data.filter(p => p.id % 2 === 0)] on the elements of an array.
    The conversion that [even_id] does not model yields a number and
    does not throw: past such an element the elements kept are not
    known, but what a later element throws is thrown. *)
Fixpoint even_posts (l : list json) : option (result (list json)) :=
  match l with
  | [] => Some (Ok [])
  | p :: r =>
      match even_id p with
      | Some (Ok b) =>
          match even_posts r with
          | Some (Ok ps) => Some (Ok (if b then p :: ps else ps))
          | other => other
          end
      | Some (Throw e) => Some (Throw e)
      | None =>
          match even_posts r with
          | Some (Throw e) => Some (Throw e)
          | _ => None
          end
      end
  end.

(** [({id,title,body}) => ({id,title,body})] on a post that passed the
    filter, which is an object. *)
Definition tip_of (p : json) : Tip :=
  match p with
  | JObj o =>
      {| tip_id := obj_get "id" o; tip_title := obj_get "title" o;
         tip_body := obj_get "body" o |}
  | _ => {| tip_id := None; tip_title := None; tip_body := None |}
  end.

(** [None] where [even_id] has no answer.  A body that is no array
    has no function [filter]. *)
Definition fetchTips (f : Fetched) : option (TipsError + list Tip) :=
  match f with
  | NetworkFailure => Some (inl FetchRejected)
  | Answer false _ => Some (inl ResponseNotOk)
  | Answer true None => Some (inl BodyRejected)
  | Answer true (Some (JArr l)) =>
      match even_posts l with
      | Some (Ok ps) => Some (inr (map tip_of ps))
      | Some (Throw e) => Some (inl (Thrown e))
      | None => None
      end
  | Answer true (Some _) => Some (inl (Thrown TypeError))
  end.

(** The [#tips] element of the suggestions page: the title and the
    text that the template takes from each tip it shows, or the text
    that the tips could not be loaded. *)
Inductive TipsView : Type :=
| TipsShown (items : list (option json * option json))
| TipsUnavailable.

(** [t => `...${t.title}...${t.body}...`] over the tips shown: the
    template converts both to strings. *)
Fixpoint tip_rows (tips : list Tip) : result (list (option json * option json)) :=
  match tips with
  | [] => Ok []
  | t :: r =>
      title_shown <- ToString (tip_title t) ;;
      body_shown <- ToString (tip_body t) ;;
      rows <- tip_rows r ;;
      Ok ((tip_title t, tip_body t) :: rows)
  end.

(** The [try] and [catch] around [await fetchTips()]. *)
Definition showTips (f : Fetched) : option TipsView :=
  match fetchTips f with
  | Some (inr tips) =>
      Some match tip_rows (firstn 3 tips) with
           | Ok rows => TipsShown rows
           | Throw _ => TipsUnavailable
           end
  | Some (inl _) => Some TipsUnavailable
  | None => None
  end.

(** A post as the endpoint sends it, and its value in the body. *)
Record Post : Type := {
  post_userId : Z;
  post_id : Z;
  post_title : string;
  post_body : string
}.

Definition post_json (p : Post) : json :=
  JObj [("userId", JNum (post_userId p)); ("id", JNum (post_id p));
        ("title", JStr (post_title p)); ("body", JStr (post_body p))]%string.

(** ** The link handler on the suggestions page *)

(** The page once the delayed attempt has run: the handler reaches the
    two elements of the document, not the index of the player. *)
Definition autoPlayOnPage (search : string) (play_param : option string)
    (st : Suggestions) : Suggestions :=
  let dom := autoPlay search play_param (suggestions_dom st) in
  {| currentIndex := currentIndex st;
     audio := default (audio st) (dom_audio dom);
     now := default (now st) (dom_now dom);
     songs := songs st |}.

(** ** Saving several songs *)

(** Calls of [saveSong] one after the other, as the Save buttons make
    them once the function exists: each with the song and the reading
    of the clock. *)
Fixpoint save_all (clicks : list (Song.t * string)) (ls : LocalStorage)
  : result LocalStorage :=
  match clicks with
  | [] => Ok ls
  | (song, now_iso) :: r => ls' <- saveSong song now_iso ls ;; save_all r ls'
  end.

(** * Properties *)

Lemma Ok_inj {A : Type} (a b : A) : Ok a = Ok b -> a = b.
Proof. congruence. Qed.

Section JSONFacts.

Lemma size_arr l : size (JArr l) = S (size_elems l).
Proof. reflexivity. Qed.

Lemma size_obj o : size (JObj o) = S (size_members o).
Proof.
  simpl. f_equal. induction o as [|[k x] r IH]; simpl; [done|]. by rewrite IH.
Qed.

Lemma scan_digits_digits d r :
  delimited r -> scan_digits (digits d ++ r) = (d, r).
Proof.
  intros Hr. induction d; simpl; rewrite ?IHd; try done.
  destruct r as [|c r']; [done|].
  simpl in Hr. destruct Hr as [-> | [-> | ->]]; done.
Qed.

Lemma unorm_to_uint p : unorm (Pos.to_uint p) = Pos.to_uint p.
Proof.
  rewrite <- DecimalPos.Unsigned.to_of, DecimalPos.Unsigned.of_to. reflexivity.
Qed.

Lemma parse_unsigned_digits d r :
  d <> Nil -> unorm d = d -> delimited r ->
  parse_unsigned (digits d ++ r) = Some (Z.of_uint d, r).
Proof.
  intros Hnil Hnorm Hr. unfold parse_unsigned.
  rewrite scan_digits_digits by done.
  destruct (uint_eq_dec (unorm d) d) as [_|Hne]; [|done].
  assert (Hfrac : match r with
                  | "."%char :: _ | "e"%char :: _ | "E"%char :: _ => None
                  | _ => Some (Z.of_uint d, r)
                  end = Some (Z.of_uint d, r)).
  { destruct r as [|c r']; [done|]. simpl in Hr.
    by destruct Hr as [-> | [-> | ->]]. }
  destruct d; done.
Qed.

Lemma parse_number_print z r :
  delimited r -> parse_number (print_number z ++ r) = Some (z, r).
Proof.
  intros Hr. unfold print_number. destruct z as [|p|p]; simpl Z.to_int; cbv iota.
  - change (digits (D0 Nil) ++ r) with ("0"%char :: r).
    unfold parse_number.
    change ("0"%char :: r) with (digits (D0 Nil) ++ r).
    by rewrite parse_unsigned_digits.
  - pose proof (DecimalPos.Unsigned.to_uint_nonnil p) as Hnil.
    pose proof (unorm_to_uint p) as Hnorm.
    pose proof (DecimalPos.Unsigned.of_to p) as Hof.
    assert (Hval : Z.of_uint (Pos.to_uint p) = Z.pos p).
    { unfold Z.of_uint. by rewrite Hof. }
    rewrite <- Hval.
    rewrite <- (parse_unsigned_digits _ r Hnil Hnorm Hr).
    unfold parse_number. by destruct (Pos.to_uint p).
  - pose proof (DecimalPos.Unsigned.to_uint_nonnil p) as Hnil.
    pose proof (unorm_to_uint p) as Hnorm.
    pose proof (DecimalPos.Unsigned.of_to p) as Hof.
    assert (Hval : Z.of_uint (Pos.to_uint p) = Z.pos p).
    { unfold Z.of_uint. by rewrite Hof. }
    change (("-"%char :: digits (Pos.to_uint p)) ++ r)
      with ("-"%char :: (digits (Pos.to_uint p) ++ r)).
    unfold parse_number.
    rewrite (parse_unsigned_digits _ r Hnil Hnorm Hr), Hval. reflexivity.
Qed.

Lemma parse_string_escape c t s r :
  parse_string t = Some (s, r) ->
  parse_string (escape c ++ t) = Some (c :: s, r).
Proof.
  intros H.
  destruct c as [[] [] [] [] [] [] [] []]; simpl; rewrite H; reflexivity.
Qed.

Lemma parse_string_quote cs r :
  parse_string (flat_map escape cs ++ "034"%char :: r) = Some (cs, r).
Proof.
  induction cs as [|c cs IH]; [done|].
  simpl flat_map. rewrite <- app_assoc. by apply parse_string_escape.
Qed.

Lemma print_arr l : print (JArr l) = "["%char :: print_elements l ++ ["]"%char].
Proof. reflexivity. Qed.

Lemma print_obj o : print (JObj o) = "{"%char :: print_members o ++ ["}"%char].
Proof. reflexivity. Qed.

Lemma canonical_arr l : canonical (JArr l) = all_canonical l.
Proof. reflexivity. Qed.

Lemma canonical_obj o :
  canonical (JObj o) = (NoDup (map fst o) /\ members_canonical o).
Proof. reflexivity. Qed.

Lemma print_number_head z :
  exists c t, print_number z = c :: t /\ In c (chars "-0123456789").
Proof.
  unfold print_number.
  destruct z as [|p|p]; simpl Z.to_int; cbv iota.
  - exists "0"%char, []. split; [done|]. simpl. tauto.
  - pose proof (DecimalPos.Unsigned.to_uint_nonnil p).
    destruct (Pos.to_uint p) as [|d|d|d|d|d|d|d|d|d|d]; [done|..];
      eexists _, _; (split; [reflexivity|]); simpl; tauto.
  - eexists _, _. split; [reflexivity|]. simpl. tauto.
Qed.

Lemma print_head v : exists c t, print v = c :: t /\ value_head c.
Proof.
  destruct v as [|[]|z|s|l|o];
    try (eexists _, _; (split; [reflexivity|]); unfold value_head; simpl; tauto).
  destruct (print_number_head z) as (c & t & E & Hc).
  exists c, t. split; [done|]. left. simpl in *. tauto.
Qed.

Lemma print_elements_head x l :
  exists c t, print_elements (x :: l) = c :: t /\ value_head c.
Proof.
  destruct (print_head x) as (c & t & E & Hc).
  destruct l as [|y l]; simpl; rewrite E; eauto.
Qed.

Ltac head_cases H :=
  unfold value_head in H; simpl in H;
  repeat (destruct H as [H | H]); try done; subst.

Lemma parse_value_number f c t :
  In c (chars "-0123456789") ->
  parse_value (S f) (c :: t) =
    match parse_number (c :: t) with
    | Some (z, r) => Some (JNum z, r)
    | None => None
    end.
Proof.
  intros H. simpl in H. repeat (destruct H as [H | H]); try done; subst;
    reflexivity.
Qed.

Lemma parse_value_arr_cons f c t :
  value_head c ->
  parse_value (S f) ("["%char :: c :: t) = parse_elements f (c :: t) [].
Proof. intros H. head_cases H; reflexivity. Qed.

Lemma parse_elements_next f cs acc x r :
  parse_value f cs = Some (x, ","%char :: r) ->
  parse_elements (S f) cs acc = parse_elements f r (x :: acc).
Proof. intros H. cbn [parse_elements]. unfold elements_step. by rewrite H. Qed.

Lemma parse_elements_last f cs acc x r :
  parse_value f cs = Some (x, "]"%char :: r) ->
  parse_elements (S f) cs acc = Some (JArr (rev (x :: acc)), r).
Proof. intros H. cbn [parse_elements]. unfold elements_step. by rewrite H. Qed.

Lemma parse_members_next f k t acc x r1 r :
  parse_string t = Some (k, ":"%char :: r1) ->
  parse_value f r1 = Some (x, ","%char :: r) ->
  parse_members (S f) ("034"%char :: t) acc =
    parse_members f r (obj_set (string_of_list_ascii k) x acc).
Proof.
  intros H1 H2. cbn [parse_members]. unfold members_step. cbn [skip_ws is_ws].
  rewrite H1. cbn [skip_ws is_ws]. by rewrite H2.
Qed.

Lemma parse_members_last f k t acc x r1 r :
  parse_string t = Some (k, ":"%char :: r1) ->
  parse_value f r1 = Some (x, "}"%char :: r) ->
  parse_members (S f) ("034"%char :: t) acc =
    Some (JObj (obj_set (string_of_list_ascii k) x acc), r).
Proof.
  intros H1 H2. cbn [parse_members]. unfold members_step. cbn [skip_ws is_ws].
  rewrite H1. cbn [skip_ws is_ws]. by rewrite H2.
Qed.

Lemma obj_set_fresh k v o :
  k ∉ map fst o -> obj_set k v o = o ++ [(k, v)].
Proof.
  induction o as [|[k' v'] o IH]; simpl; [done|]. intros Hk.
  apply not_elem_of_cons in Hk as [Hne Hk].
  destruct (String.eqb_spec k k') as [->|_]; [done|].
  by rewrite IH.
Qed.

Lemma parse_print_fuel fuel :
  (forall v r,
      (size v < fuel)%nat -> canonical v -> delimited r ->
      parse_value fuel (print v ++ r) = Some (v, r)) /\
  (forall l acc r,
      l <> [] -> (size_elems l < fuel)%nat -> all_canonical l ->
      parse_elements fuel (print_elements l ++ "]"%char :: r) acc
      = Some (JArr (rev acc ++ l), r)) /\
  (forall o acc r,
      o <> [] -> (size_members o < fuel)%nat ->
      NoDup (map fst (acc ++ o)) -> members_canonical o ->
      parse_members fuel (print_members o ++ "}"%char :: r) acc
      = Some (JObj (acc ++ o), r)).
Proof.
  induction fuel as [|f (IHv & IHe & IHm)].
  { repeat split.
    - intros v r H. lia.
    - intros l acc r H. lia.
    - intros o acc r H. lia. }
  repeat split.
  - intros v r Hsz Hcan Hr.
    destruct v as [|[]|z|s|l|o]; try reflexivity.
    + destruct (print_number_head z) as (c & t & E & Hc).
      pose proof (parse_number_print z r Hr) as Hnum.
      simpl print in *. rewrite E in *. cbn [app] in *.
      rewrite parse_value_number by done. by rewrite Hnum.
    + change (print (JStr s) ++ r)
        with ("034"%char :: (flat_map escape (chars s) ++ ["034"%char]) ++ r).
      rewrite <- app_assoc. cbn [app].
      change (parse_value (S f) ("034"%char :: ?t))
        with (match parse_string t with
              | Some (s, r') => Some (JStr (string_of_list_ascii s), r')
              | None => None
              end).
      rewrite parse_string_quote. unfold chars.
      by rewrite string_of_list_ascii_of_string.
    + rewrite print_arr. rewrite size_arr in Hsz. rewrite canonical_arr in Hcan.
      destruct l as [|x l]; [reflexivity|].
      cbn [app]. rewrite <- app_assoc. cbn [app].
      destruct (print_elements_head x l) as (c & t & E & Hc).
      rewrite E. cbn [app]. rewrite parse_value_arr_cons by done.
      change (c :: t ++ ?u) with ((c :: t) ++ u). rewrite <- E.
      rewrite IHe; [done|done|lia|done].
    + rewrite print_obj. rewrite size_obj in Hsz. rewrite canonical_obj in Hcan.
      destruct o as [|[k x] o]; [reflexivity|].
      cbn [app]. rewrite <- app_assoc. cbn [app].
      assert (E : exists t, print_members ((k, x) :: o) = "034"%char :: t).
      { destruct o as [|[k' x'] o]; simpl; eauto. }
      destruct E as (t & E). rewrite E. cbn [app].
      change (parse_value (S f) ("{"%char :: "034"%char :: ?u))
        with (parse_members f ("034"%char :: u) []).
      change ("034"%char :: t ++ ?u) with (("034"%char :: t) ++ u). rewrite <- E.
      rewrite IHm; [done|done|lia|tauto|tauto].
  - intros l acc r Hne Hsz Hcan.
    destruct l as [|x l]; [done|]. clear Hne.
    simpl in Hsz. destruct Hcan as [Hx Hl].
    destruct l as [|y l].
    + simpl print_elements.
      rewrite (parse_elements_last f _ acc x r).
      * simpl. done.
      * apply IHv; [lia|done|simpl; tauto].
    + change (print_elements (x :: y :: l))
        with (print x ++ ","%char :: print_elements (y :: l)).
      rewrite <- app_assoc. cbn [app].
      rewrite (parse_elements_next f _ acc x
                 (print_elements (y :: l) ++ "]"%char :: r)).
      * rewrite IHe; [|done|simpl in *; lia|done].
        simpl. by rewrite <- app_assoc.
      * apply IHv; [lia|done|simpl; tauto].
  - intros o acc r Hne Hsz Hnd Hcan.
    destruct o as [|[k x] o]; [done|]. clear Hne.
    simpl in Hsz. destruct Hcan as [Hx Ho].
    assert (Hfresh : k ∉ map fst acc).
    { rewrite map_app in Hnd. simpl in Hnd.
      apply NoDup_app in Hnd as (_ & Hnd & _).
      intros Hin. apply (Hnd k Hin). by left. }
    assert (Hk : string_of_list_ascii (chars k) = k).
    { unfold chars. apply string_of_list_ascii_of_string. }
    destruct o as [|[k' y] o].
    + simpl print_members. unfold quote. cbn [app].
      rewrite <- !app_assoc. cbn [app].
      rewrite (parse_members_last f (chars k) _ acc x (print x ++ "}"%char :: r) r).
      * by rewrite Hk, obj_set_fresh.
      * rewrite <- parse_string_quote. done.
      * apply IHv; [lia|done|simpl; tauto].
    + change (print_members ((k, x) :: (k', y) :: o))
        with (quote k ++ ":"%char :: print x ++ ","%char
                :: print_members ((k', y) :: o)).
      unfold quote at 1. cbn [app].
      rewrite <- !app_assoc. cbn [app]. rewrite <- !app_assoc. cbn [app].
      rewrite (parse_members_next f (chars k) _ acc x
                 (print x ++ ","%char :: print_members ((k', y) :: o)
                    ++ "}"%char :: r)
                 (print_members ((k', y) :: o) ++ "}"%char :: r)).
      * rewrite Hk, obj_set_fresh by done.
        rewrite IHm; [|done|simpl in *; lia| |done].
        -- by rewrite <- app_assoc.
        -- by rewrite <- app_assoc.
      * rewrite <- parse_string_quote. done.
      * apply IHv; [lia|done|simpl; tauto].
Qed.

Lemma print_nonempty v : (1 <= List.length (print v))%nat.
Proof.
  destruct (print_head v) as (c & t & E & _). rewrite E. simpl. lia.
Qed.

Lemma size_le_print n :
  forall v, (size v <= n)%nat -> (size v <= List.length (print v))%nat.
Proof.
  induction n as [|n IH]; intros v Hn.
  { destruct v; simpl in Hn; lia. }
  destruct v as [|b|z|s|l|o];
    [apply (print_nonempty JNull) | apply (print_nonempty (JBool b))
    | apply (print_nonempty (JNum z)) | apply (print_nonempty (JStr s)) | | ].
  - rewrite size_arr in *. rewrite print_arr.
    cbn [List.length]. rewrite length_app. cbn [List.length].
    assert (Hl : (size_elems l <= n)%nat) by lia. clear Hn.
    enough (size_elems l <= List.length (print_elements l) + 1)%nat by lia.
    induction l as [|x l IHl]; [simpl; lia|].
    simpl in Hl.
    assert (size x <= List.length (print x))%nat by (apply IH; lia).
    assert (size_elems l <= List.length (print_elements l) + 1)%nat
      by (apply IHl; lia).
    destruct l as [|y l].
    + simpl. lia.
    + change (print_elements (x :: y :: l))
        with (print x ++ ","%char :: print_elements (y :: l)).
      rewrite length_app. cbn [List.length].
      change (size_elems (x :: y :: l))
        with (S (size x + size_elems (y :: l))). lia.
  - rewrite size_obj in *. rewrite print_obj.
    cbn [List.length]. rewrite length_app. cbn [List.length].
    assert (Ho : (size_members o <= n)%nat) by lia. clear Hn.
    enough (size_members o <= List.length (print_members o) + 1)%nat by lia.
    induction o as [|[k x] o IHo]; [simpl; lia|].
    simpl in Ho.
    assert (size x <= List.length (print x))%nat by (apply IH; lia).
    assert (size_members o <= List.length (print_members o) + 1)%nat
      by (apply IHo; lia).
    destruct o as [|[k' y] o].
    + change (print_members [(k, x)]) with (quote k ++ ":"%char :: print x).
      rewrite length_app. cbn [List.length].
      change (size_members [(k, x)]) with (S (size x + 0)). lia.
    + change (print_members ((k, x) :: (k', y) :: o))
        with (quote k ++ ":"%char :: print x ++ ","%char
                :: print_members ((k', y) :: o)).
      rewrite length_app. cbn [List.length].
      rewrite length_app. cbn [List.length].
      change (size_members ((k, x) :: (k', y) :: o))
        with (S (size x + size_members ((k', y) :: o))). lia.
Qed.

(** What [JSON.stringify] wrote, [JSON.parse] reads back. *)
Lemma parse_stringify v : canonical v -> parse (stringify v) = Some v.
Proof.
  intros Hcan. unfold parse, stringify, chars.
  rewrite list_ascii_of_string_of_list_ascii.
  destruct (parse_print_fuel (S (List.length (print v)))) as (Hv & _ & _).
  specialize (Hv v [] ).
  rewrite app_nil_r in Hv. rewrite Hv; [done| |done|done].
  pose proof (size_le_print (size v) v). lia.
Qed.

Lemma stringify_nonempty v : String.eqb (stringify v) "" = false.
Proof.
  unfold stringify. destruct (print_head v) as (c & t & E & _).
  by rewrite E.
Qed.

End JSONFacts.

(** ** The fuel of the parser is enough

    A parse that succeeds with some fuel succeeds with as much fuel as
    it reads characters, and with any more: [parse], which gives one
    unit more than the text is long, fails only on a text that no fuel
    parses. *)

Section ParserFuel.

Lemma skip_ws_length cs : (List.length (skip_ws cs) <= List.length cs)%nat.
Proof.
  induction cs as [|c cs IH]; [done|]. cbn [skip_ws].
  destruct (is_ws c); cbn [List.length]; lia.
Qed.

Lemma strip_prefix_length p cs r :
  p <> [] -> strip_prefix p cs = Some r -> (List.length r < List.length cs)%nat.
Proof.
  revert cs. induction p as [|a p IH]; [done|]. intros [|c cs] _; [done|].
  cbn [strip_prefix]. destruct (Ascii.eqb a c); [|done].
  destruct p as [|b p].
  - intros [= ->]. cbn [List.length]. lia.
  - intros H. apply IH in H; [|done]. cbn [List.length]. lia.
Qed.

Lemma scan_digits_length cs d r :
  scan_digits cs = (d, r) ->
  (List.length r <= List.length cs)%nat /\
  (d <> Nil -> List.length r < List.length cs)%nat.
Proof.
  revert d r. induction cs as [|c cs IH]; intros d r.
  { intros [= <- <-]. split; [done|]. by intros H. }
  cbn [scan_digits]. destruct (scan_digits cs) as [d' r'].
  specialize (IH d' r' eq_refl) as [IH _].
  destruct c as [[] [] [] [] [] [] [] []]; intros [= <- <-];
    cbn [List.length]; (split; [lia|]); intros H; first [lia|done].
Qed.

Lemma parse_unsigned_length cs z r :
  parse_unsigned cs = Some (z, r) -> (List.length r < List.length cs)%nat.
Proof.
  unfold parse_unsigned. destruct (scan_digits cs) as [d r'] eqn:E.
  apply scan_digits_length in E as [_ E].
  destruct d; [done|..];
    (destruct (uint_eq_dec _ _); [|done]);
    (assert (List.length r' < List.length cs)%nat by by apply E);
    destruct r' as [|[[] [] [] [] [] [] [] []] r'']; intros [= <- <-]; done.
Qed.

Lemma parse_number_length cs z r :
  parse_number cs = Some (z, r) -> (List.length r < List.length cs)%nat.
Proof.
  unfold parse_number.
  destruct cs as [|[[] [] [] [] [] [] [] []] cs];
    try apply parse_unsigned_length.
  destruct (parse_unsigned cs) as [[z' r']|] eqn:E; [|done].
  apply parse_unsigned_length in E. intros [= <- <-]. cbn [List.length]. lia.
Qed.

Lemma parse_atom_length cs v r :
  parse_atom cs = Some (v, r) -> (List.length r < List.length cs)%nat.
Proof.
  unfold parse_atom.
  destruct (strip_prefix (chars "null") cs) eqn:E1.
  { intros [= <- <-]. by apply strip_prefix_length in E1. }
  destruct (strip_prefix (chars "true") cs) eqn:E2.
  { intros [= <- <-]. by apply strip_prefix_length in E2. }
  destruct (strip_prefix (chars "false") cs) eqn:E3.
  { intros [= <- <-]. by apply strip_prefix_length in E3. }
  destruct (parse_number cs) as [[z r']|] eqn:E4; [|done].
  intros [= <- <-]. by apply parse_number_length in E4.
Qed.

Lemma parse_string_length cs s r :
  parse_string cs = Some (s, r) -> (List.length r < List.length cs)%nat.
Proof.
  remember (List.length cs) as n eqn:En.
  revert cs s r En. induction (lt_wf n) as [n _ IH]. intros cs s r -> H.
  destruct cs as [|c cs]; [done|].
  assert (Hplain : forall t s' r',
             parse_string t = Some (s', r') ->
             (List.length t < List.length (c :: cs))%nat ->
             (List.length r' < List.length (c :: cs))%nat).
  { intros t s' r' Ht Hlt. pose proof (IH _ Hlt t s' r' eq_refl Ht). lia. }
  destruct c as [[] [] [] [] [] [] [] []]; cbn in H;
    try done;
    try (injection H as <- <-; cbn [List.length]; lia);
    try (destruct (parse_string cs) as [[s' r']|] eqn:E; [|done];
         injection H as <- <-;
         apply (Hplain cs s' r' E); cbn [List.length]; lia).
  destruct cs as [|e cs]; [done|].
  destruct e as [[] [] [] [] [] [] [] []]; try done;
    try (destruct (parse_string cs) as [[s' r']|] eqn:E; [|done];
         injection H as <- <-;
         apply (Hplain cs s' r' E); cbn [List.length]; lia).
  destruct cs as [|a [|b [|c [|d cs]]]]; try done.
  destruct (unicode_escape a b c d); [|done].
  destruct (parse_string cs) as [[s' r']|] eqn:E; [|done].
  injection H as <- <-. apply (Hplain cs s' r' E). cbn [List.length]. lia.
Qed.

Lemma value_step_cases E M cs v r :
  value_step E M cs = Some (v, r) ->
  ((List.length r < List.length cs)%nat /\
   forall E' M', value_step E' M' cs = Some (v, r)) \/
  (exists r0, (List.length r0 < List.length cs)%nat /\ E r0 = Some (v, r) /\
     forall E' M' : list ascii -> parsed,
       E' r0 = Some (v, r) -> value_step E' M' cs = Some (v, r)) \/
  (exists r0, (List.length r0 < List.length cs)%nat /\ M r0 = Some (v, r) /\
     forall E' M' : list ascii -> parsed,
       M' r0 = Some (v, r) -> value_step E' M' cs = Some (v, r)).
Proof.
  unfold value_step. pose proof (skip_ws_length cs) as Hcs.
  destruct (skip_ws cs) as [|c t]; [done|]. cbn [List.length] in Hcs.
  pose proof (skip_ws_length t) as Ht.
  destruct c as [[] [] [] [] [] [] [] []];
    try (intros H; pose proof (parse_atom_length _ _ _ H) as Hlen;
         cbn [List.length] in Hlen; left; split; [lia|done]).
  - destruct (skip_ws t) as [|c' t']; cbn [List.length] in Ht.
    { intros H. right. right. exists t. split; [lia|done]. }
    destruct c' as [[] [] [] [] [] [] [] []];
      try (intros H; right; right; exists t; split; [lia|done]).
    intros [= <- <-]. left. split; [lia|done].
  - destruct (skip_ws t) as [|c' t']; cbn [List.length] in Ht.
    { intros H. right. left. exists t. split; [lia|done]. }
    destruct c' as [[] [] [] [] [] [] [] []];
      try (intros H; right; left; exists t; split; [lia|done]).
    intros [= <- <-]. left. split; [lia|done].
  - destruct (parse_string t) as [[s r']|] eqn:E1; [|done].
    intros [= <- <-]. left. apply parse_string_length in E1. split; [lia|done].
Qed.

Lemma elements_step_cases V E cs acc v r :
  elements_step V E cs acc = Some (v, r) ->
  exists x r1,
    V cs = Some (x, r1) /\
    (((List.length r < List.length r1)%nat /\
      forall (V' : list ascii -> parsed) (E' : list ascii -> list json -> parsed),
        V' cs = Some (x, r1) -> elements_step V' E' cs acc = Some (v, r)) \/
     (exists r2, (List.length r2 < List.length r1)%nat /\
        E r2 (x :: acc) = Some (v, r) /\
        forall (V' : list ascii -> parsed) (E' : list ascii -> list json -> parsed),
          V' cs = Some (x, r1) -> E' r2 (x :: acc) = Some (v, r) ->
          elements_step V' E' cs acc = Some (v, r))).
Proof.
  unfold elements_step. destruct (V cs) as [[x r1]|]; [|done].
  pose proof (skip_ws_length r1) as Hr1. intros H. exists x, r1. split; [done|].
  destruct (skip_ws r1) as [|c t] eqn:E1; [done|]. cbn [List.length] in Hr1.
  destruct c as [[] [] [] [] [] [] [] []]; try done.
  - injection H as <- <-. left. split; [lia|].
    intros V' E' HV. by rewrite HV, E1.
  - right. exists t. split; [lia|]. split; [done|].
    intros V' E' HV HE. by rewrite HV, E1.
Qed.

Lemma members_step_cases V M cs acc v r :
  members_step V M cs acc = Some (v, r) ->
  exists r2 x r3 acc',
    (List.length r2 < List.length cs)%nat /\ V r2 = Some (x, r3) /\
    (((List.length r < List.length r3)%nat /\
      forall (V' : list ascii -> parsed)
             (M' : list ascii -> list (string * json) -> parsed),
        V' r2 = Some (x, r3) -> members_step V' M' cs acc = Some (v, r)) \/
     (exists r4, (List.length r4 < List.length r3)%nat /\
        M r4 acc' = Some (v, r) /\
        forall (V' : list ascii -> parsed)
               (M' : list ascii -> list (string * json) -> parsed),
          V' r2 = Some (x, r3) -> M' r4 acc' = Some (v, r) ->
          members_step V' M' cs acc = Some (v, r))).
Proof.
  unfold members_step. pose proof (skip_ws_length cs) as Hcs.
  destruct (skip_ws cs) as [|c t]; [done|]. cbn [List.length] in Hcs.
  destruct c as [[] [] [] [] [] [] [] []]; try done.
  destruct (parse_string t) as [[k r1]|] eqn:E1; [|done].
  apply parse_string_length in E1.
  pose proof (skip_ws_length r1) as Hr1.
  destruct (skip_ws r1) as [|c r2]; [done|]. cbn [List.length] in Hr1.
  destruct c as [[] [] [] [] [] [] [] []]; try done.
  destruct (V r2) as [[x r3]|] eqn:EV; [|done].
  pose proof (skip_ws_length r3) as Hr3. intros H.
  exists r2, x, r3, (obj_set (string_of_list_ascii k) x acc).
  split; [lia|]. split; [done|].
  destruct (skip_ws r3) as [|c r4] eqn:E3; [done|]. cbn [List.length] in Hr3.
  destruct c as [[] [] [] [] [] [] [] []]; try done.
  - injection H as <- <-. left. split; [lia|].
    intros V' M' HV. by rewrite HV, E3.
  - right. exists r4. split; [lia|]. split; [done|].
    intros V' M' HV HM. by rewrite HV, E3.
Qed.

Lemma parse_fuel_enough f :
  (forall cs v r,
      parse_value f cs = Some (v, r) ->
      (List.length r < List.length cs)%nat /\
      forall k, (List.length cs - List.length r <= k)%nat ->
                parse_value k cs = Some (v, r)) /\
  (forall cs acc v r,
      parse_elements f cs acc = Some (v, r) ->
      (List.length r < List.length cs)%nat /\
      forall k, (List.length cs - List.length r <= k)%nat ->
                parse_elements k cs acc = Some (v, r)) /\
  (forall cs acc v r,
      parse_members f cs acc = Some (v, r) ->
      (List.length r < List.length cs)%nat /\
      forall k, (List.length cs - List.length r <= k)%nat ->
                parse_members k cs acc = Some (v, r)).
Proof.
  induction f as [|f (IHv & IHe & IHm)]; [done|]. repeat split.
  - apply value_step_cases in H
      as [[Hlen _] | [(r0 & Hlen & H & _) | (r0 & Hlen & H & _)]];
      [done | apply IHe in H as [H _]; lia | apply IHm in H as [H _]; lia].
  - intros [|k] Hk.
    { apply value_step_cases in H
        as [[Hlen _] | [(r0 & Hlen & H & _) | (r0 & Hlen & H & _)]];
        [lia | apply IHe in H as [H _]; lia | apply IHm in H as [H _]; lia]. }
    cbn [parse_value].
    apply value_step_cases in H
      as [[Hlen Hall] | [(r0 & Hlen & H & Hall) | (r0 & Hlen & H & Hall)]].
    + apply Hall.
    + apply Hall. apply IHe in H as [Hlen' H]. apply H. lia.
    + apply Hall. apply IHm in H as [Hlen' H]. apply H. lia.
  - apply elements_step_cases in H as (x & r1 & HV & H).
    apply IHv in HV as [HV _].
    destruct H as [[Hlen _] | (r2 & Hlen & H & _)]; [lia|].
    apply IHe in H as [H _]. lia.
  - intros k Hk.
    apply elements_step_cases in H as (x & r1 & HV & H).
    apply IHv in HV as [Hlen1 HV].
    destruct H as [[Hlen Hall] | (r2 & Hlen & H & Hall)].
    + destruct k as [|k]; [lia|]. cbn [parse_elements].
      apply Hall. apply HV. lia.
    + apply IHe in H as [Hlen2 H].
      destruct k as [|k]; [lia|]. cbn [parse_elements].
      apply Hall; [apply HV | apply H]; lia.
  - apply members_step_cases in H as (r2 & x & r3 & acc' & Hlen2 & HV & H).
    apply IHv in HV as [HV _].
    destruct H as [[Hlen _] | (r4 & Hlen & H & _)]; [lia|].
    apply IHm in H as [H _]. lia.
  - intros k Hk.
    apply members_step_cases in H as (r2 & x & r3 & acc' & Hlen2 & HV & H).
    apply IHv in HV as [Hlen3 HV].
    destruct H as [[Hlen Hall] | (r4 & Hlen & H & Hall)].
    + destruct k as [|k]; [lia|]. cbn [parse_members].
      apply Hall. apply HV. lia.
    + apply IHm in H as [Hlen4 H].
      destruct k as [|k]; [lia|]. cbn [parse_members].
      apply Hall; [apply HV | apply H]; lia.
Qed.

(** No fuel reads a value from a text that [parse] refuses. *)
Lemma parse_any_fuel text fuel v r :
  parse_value fuel (chars text) = Some (v, r) -> skip_ws r = [] ->
  parse text = Some v.
Proof.
  intros H Hr. unfold parse.
  destruct (parse_fuel_enough fuel) as (Hv & _ & _).
  apply Hv in H as [_ H]. rewrite H by lia. by rewrite Hr.
Qed.

End ParserFuel.

(** ** Storage *)

Section StorageFacts.

Lemma load_missing key fallback (ls : LocalStorage) :
  ls !! key = None -> loadFromStorage key fallback ls = Ok fallback.
Proof. intros H. unfold loadFromStorage. by rewrite H. Qed.

Lemma load_stored key fallback (ls : LocalStorage) v :
  canonical v ->
  ls !! key = Some (stringify v) -> loadFromStorage key fallback ls = Ok v.
Proof.
  intros Hcan H. unfold loadFromStorage.
  by rewrite H, stringify_nonempty, parse_stringify.
Qed.

(** A value that was saved is the value that is loaded. *)
Lemma load_save key fallback (ls : LocalStorage) v :
  canonical v ->
  loadFromStorage key fallback (saveToStorage key v ls) = Ok v.
Proof.
  intros Hcan. apply load_stored; [done|].
  unfold saveToStorage. apply lookup_insert_eq.
Qed.

Lemma load_save_other key key' fallback (ls : LocalStorage) v :
  key <> key' ->
  loadFromStorage key' fallback (saveToStorage key v ls)
  = loadFromStorage key' fallback ls.
Proof.
  intros Hne. unfold loadFromStorage, saveToStorage.
  by rewrite lookup_insert_ne.
Qed.

(** A stored text that is not empty is parsed. *)
Lemma load_parsed key fallback (ls : LocalStorage) raw v :
  ls !! key = Some raw -> raw <> ""%string -> parse raw = Some v ->
  loadFromStorage key fallback ls = Ok v.
Proof.
  intros H Hne Hp. unfold loadFromStorage. rewrite H.
  destruct (String.eqb_spec raw "") as [->|_]; [done|]. by rewrite Hp.
Qed.

Lemma load_refused key fallback (ls : LocalStorage) raw :
  ls !! key = Some raw -> raw <> ""%string -> parse raw = None ->
  loadFromStorage key fallback ls = Throw SyntaxError.
Proof.
  intros H Hne Hp. unfold loadFromStorage. rewrite H.
  destruct (String.eqb_spec raw "") as [->|_]; [done|]. by rewrite Hp.
Qed.

End StorageFacts.

(** C4, as stated, fails: with the malformed text [{] stored under the
    key, [loadFromStorage] does not answer with the fallback but throws
    the SyntaxError of [JSON.parse] to its caller. *)
Lemma loadFromStorage_malformed_throws :
  parse "{" = None /\
  loadFromStorage STORAGE_KEYS.USER JNull {[ STORAGE_KEYS.USER := "{"%string ]}
  = Throw SyntaxError.
Proof.
  split; [reflexivity|].
  unfold loadFromStorage. rewrite lookup_singleton_eq. reflexivity.
Qed.

(** C4, amended: [loadFromStorage key fallback] answers with the
    fallback when the key is absent or holds the empty text, with the
    parsed value when the text under the key is not empty and
    well-formed, and throws SyntaxError when that text is not empty
    and malformed; a value written by [saveToStorage] is read back as
    it was.  The stored texts are those on which [parse] stands for
    [JSON.parse]. *)
Theorem loadFromStorage_cases (key : string) (fallback : json) (ls : LocalStorage) :
  (ls !! key = None -> loadFromStorage key fallback ls = Ok fallback) /\
  (ls !! key = Some ""%string -> loadFromStorage key fallback ls = Ok fallback) /\
  (forall raw v,
      ls !! key = Some raw -> raw <> ""%string -> in_fragment raw = true ->
      parse raw = Some v ->
      loadFromStorage key fallback ls = Ok v) /\
  (forall raw,
      ls !! key = Some raw -> raw <> ""%string -> in_fragment raw = true ->
      parse raw = None ->
      loadFromStorage key fallback ls = Throw SyntaxError) /\
  (forall v,
      canonical v ->
      loadFromStorage key fallback (saveToStorage key v ls) = Ok v).
Proof.
  repeat split.
  - apply load_missing.
  - intros H. unfold loadFromStorage. by rewrite H.
  - intros raw v H Hne _ Hp. by apply (load_parsed _ _ _ raw).
  - intros raw H Hne _ Hp. by apply (load_refused _ _ _ raw).
  - intros v Hcan. by apply load_save.
Qed.

Lemma loadFromStorage_cases_witness :
  loadFromStorage "k" (JArr []) (∅ : LocalStorage) = Ok (JArr []) /\
  loadFromStorage "k" (JArr []) ({[ "k"%string := ""%string ]} : LocalStorage)
  = Ok (JArr []) /\
  loadFromStorage "k" JNull ({[ "k"%string := "[1,true]"%string ]} : LocalStorage)
  = Ok (JArr [JNum 1; JBool true]) /\
  loadFromStorage "k" JNull ({[ "k"%string := "[1,"%string ]} : LocalStorage)
  = Throw SyntaxError /\
  loadFromStorage "k" JNull (saveToStorage "k" (JNum 7) ∅) = Ok (JNum 7).
Proof.
  split; [|split; [|split; [|split]]].
  - destruct (loadFromStorage_cases "k" (JArr []) ∅) as (H & _).
    apply H, lookup_empty.
  - destruct (loadFromStorage_cases "k" (JArr []) {[ "k"%string := ""%string ]})
      as (_ & H & _).
    apply H, lookup_singleton_eq.
  - destruct (loadFromStorage_cases "k" JNull {[ "k"%string := "[1,true]"%string ]})
      as (_ & _ & H & _).
    apply (H "[1,true]"%string);
      [apply lookup_singleton_eq | discriminate | reflexivity | reflexivity].
  - destruct (loadFromStorage_cases "k" JNull {[ "k"%string := "[1,"%string ]})
      as (_ & _ & _ & H & _).
    apply (H "[1,"%string);
      [apply lookup_singleton_eq | discriminate | reflexivity | reflexivity].
  - destruct (loadFromStorage_cases "k" JNull ∅) as (_ & _ & _ & _ & H).
    apply H. exact I.
Defined.

(** ** The validator *)

Section ValidatorFacts.

Lemma more_spec a (k : list ascii -> bool) cs :
  (fix more (cs : list ascii) : bool :=
     match cs with
     | c :: r => atom_ok a c && (k r || more r)
     | [] => false
     end) cs = true <->
  exists u r,
    u <> [] /\ Forall (fun c => atom_ok a c = true) u /\ cs = u ++ r /\
    k r = true.
Proof.
  induction cs as [|c cs IH].
  { split; [done|]. intros (u & r & Hu & _ & E & _).
    destruct u; [done|discriminate]. }
  rewrite andb_true_iff, orb_true_iff, IH. split.
  - intros [Hc [Hk | (u & r & Hu & Hall & -> & Hk)]].
    + exists [c], cs. repeat split; [done|by repeat constructor|done].
    + exists (c :: u), r. repeat split; [done|by constructor|done].
  - intros (u & r & Hu & Hall & E & Hk).
    destruct u as [|c' u]; [done|]. injection E as <- ->.
    apply Forall_cons in Hall as [Hc Hall]. split; [done|].
    destruct u as [|c'' u]; [by left|right].
    exists (c'' :: u), r. repeat split; done.
Qed.

Lemma match_here_spec ps : forall cs, match_here ps cs = true <-> lang ps cs.
Proof.
  induction ps as [|[a|a] ps IH]; intros cs.
  - destruct cs; simpl; split; done.
  - destruct cs as [|c r]; simpl.
    + split; [done|]. by intros (c & r & E & _).
    + rewrite andb_true_iff, IH. split.
      * intros [Hc Hr]. by exists c, r.
      * intros (c' & r' & E & Hc & Hr). by injection E as <- <-.
  - cbn [match_here lang]. rewrite more_spec.
    split; intros (u & r & Hu & Hall & E & Hr); exists u, r;
      repeat split; try done; by apply IH.
Qed.

Lemma email_re_spec email : test email_re email = true <-> email_shape email.
Proof.
  unfold test. rewrite match_here_spec. unfold email_shape, word, email_re.
  cbn [lang]. split.
  - intros (a & r1 & Ha & Halla & E1 & c1 & r2 & -> & Hc1 & b & r3 & Hb
             & Hallb & -> & c2 & r4 & -> & Hc2 & c & r5 & Hc & Hallc & -> & ->).
    unfold atom_ok in Hc1, Hc2.
    apply Ascii.eqb_eq in Hc1 as <-. apply Ascii.eqb_eq in Hc2 as <-.
    exists a, b, c. rewrite app_nil_r in E1.
    repeat split; try done;
      (eapply Forall_impl; [eassumption|]); intros x Hx; unfold atom_ok in Hx;
      by apply negb_true_iff in Hx.
  - intros (a & b & c & E & [Ha Halla] & [Hb Hallb] & [Hc Hallc]).
    exists a, ("@"%char :: b ++ "."%char :: c).
    repeat split; try done.
    { eapply Forall_impl; [eassumption|]. intros x Hx. unfold atom_ok. by rewrite Hx. }
    exists "@"%char, (b ++ "."%char :: c). repeat split.
    exists b, ("."%char :: c). repeat split; try done.
    { eapply Forall_impl; [eassumption|]. intros x Hx. unfold atom_ok. by rewrite Hx. }
    exists "."%char, c. repeat split.
    exists c, []. rewrite app_nil_r. repeat split; try done.
    eapply Forall_impl; [eassumption|]. intros x Hx. unfold atom_ok. by rewrite Hx.
Qed.

Lemma name_short_spec name :
  String.eqb name "" || (Z.of_nat (String.length (trim name)) <? 2) = true
  <-> name_short name.
Proof.
  unfold name_short. rewrite orb_true_iff, Z.ltb_lt.
  destruct (String.eqb_spec name "") as [->|Hne]; split;
    intros [H | H]; try done; try (by left); right; lia.
Qed.

End ValidatorFacts.

(** C5: [validateForm] applies its rules in order and the first
    failure wins.  It answers not-ok with the name message exactly when
    the name is empty or shorter than two characters once trimmed;
    otherwise not-ok with the email message exactly when the email is
    not of the shape word [@] word [.] word (words of non-space
    characters); otherwise not-ok with the mood message exactly when the
    mood is empty; otherwise ok.  [validateForm("Al", "a@b.com",
    "chill")] is ok. *)
Theorem validateForm_rules (name email mood : string) :
  (validateForm name email mood = not_ok name_message <-> name_short name) /\
  (~ name_short name ->
   (validateForm name email mood = not_ok email_message <-> ~ email_shape email)) /\
  (~ name_short name -> email_shape email ->
   (validateForm name email mood = not_ok mood_message <-> mood = ""%string)) /\
  (~ name_short name -> email_shape email -> mood <> ""%string ->
   validateForm name email mood = {| ok := true; message := None |}) /\
  validateForm "Al" "a@b.com" "chill" = {| ok := true; message := None |}.
Proof.
  pose proof (name_short_spec name) as Hn.
  pose proof (email_re_spec email) as He.
  unfold validateForm.
  destruct (String.eqb name "" || (Z.of_nat (String.length (trim name)) <? 2))
    eqn:En.
  { assert (Hshort : name_short name) by by apply Hn.
    repeat split; try done; intros; by exfalso. }
  assert (Hlong : ~ name_short name).
  { intros H. by apply Hn in H. }
  destruct (test email_re email) eqn:Et.
  - assert (Hshape : email_shape email) by by apply He.
    assert (Hnonempty : String.eqb email "" = false).
    { destruct (String.eqb_spec email "") as [->|]; [|done].
      by vm_compute in Et. }
    rewrite Hnonempty. cbn [negb orb].
    destruct (String.eqb_spec mood "") as [->|Hmood];
      repeat split; try done; intros; try done; by exfalso.
  - assert (Hshape : ~ email_shape email).
    { intros H. by apply He in H. }
    rewrite orb_true_r.
    repeat split; try done; intros; try done; by exfalso.
Qed.

Lemma validateForm_rules_witness :
  validateForm "Al" "a@b.com" "chill" = {| ok := true; message := None |} /\
  validateForm " A " "a@b.com" "chill" = not_ok name_message /\
  validateForm "Al" "a b@c.d" "chill" = not_ok email_message /\
  validateForm "Al" "a@b.com" "" = not_ok mood_message.
Proof.
  assert (Hlong : ~ name_short "Al").
  { intros [H | H]; [discriminate | vm_compute in H; lia]. }
  assert (Hshape : email_shape "a@b.com").
  { exists (chars "a"), (chars "b"), (chars "com").
    repeat split; try discriminate; repeat constructor. }
  split; [|split; [|split]].
  - destruct (validateForm_rules "Al" "a@b.com" "chill") as (_ & _ & _ & H & _).
    apply H; [exact Hlong | exact Hshape | discriminate].
  - destruct (validateForm_rules " A " "a@b.com" "chill") as (H & _).
    apply H. right. vm_compute. lia.
  - destruct (validateForm_rules "Al" "a b@c.d" "chill") as (_ & H & _).
    apply H; [exact Hlong|].
    intros Hs. apply email_re_spec in Hs. vm_compute in Hs. discriminate.
  - destruct (validateForm_rules "Al" "a@b.com" "") as (_ & _ & H & _).
    apply H; [exact Hlong | exact Hshape | reflexivity].
Defined.

(** ** The player *)

Section PlayerFacts.

Lemma findIndex_bounds {A : Type} (p : A -> bool) (l : list A) :
  findIndex p l = -1 \/ 0 <= findIndex p l < Z.of_nat (List.length l).
Proof.
  induction l as [|x l IH]; [by left|].
  cbn [findIndex List.length]. destruct (p x); [right; lia|].
  destruct (Z.eqb_spec (findIndex p l) (-1)); [by left|right; lia].
Qed.

Lemma findIndex_found {A : Type} (p : A -> bool) (l : list A) x :
  In x l -> p x = true -> 0 <= findIndex p l < Z.of_nat (List.length l).
Proof.
  induction l as [|y l IH]; [done|].
  intros [->|Hin] Hp; cbn [findIndex List.length].
  - rewrite Hp. lia.
  - destruct (p y); [lia|]. specialize (IH Hin Hp).
    destruct (Z.eqb_spec (findIndex p l) (-1)); lia.
Qed.

Lemma findIndex_none {A : Type} (p : A -> bool) (l : list A) :
  (forall x, In x l -> p x = false) -> findIndex p l = -1.
Proof.
  induction l as [|y l IH]; [done|]. intros H. cbn [findIndex].
  rewrite (H y) by by left. rewrite IH; [done|]. intros x Hx. apply H. by right.
Qed.

Lemma playSongAtIndex_index idx st :
  currentIndex (playSongAtIndex idx st) = currentIndex st.
Proof.
  unfold playSongAtIndex.
  destruct ((idx <? 0) || (idx >=? Z.of_nat (List.length SONGS))); [done|].
  by destruct (SONGS !! Z.to_nat idx).
Qed.

Lemma playSongAtIndex_songs idx st :
  songs (playSongAtIndex idx st) = songs st.
Proof.
  unfold playSongAtIndex.
  destruct ((idx <? 0) || (idx >=? Z.of_nat (List.length SONGS))); [done|].
  by destruct (SONGS !! Z.to_nat idx).
Qed.

Lemma changeTrack_index dir st :
  currentIndex (changeTrack dir st) =
    if currentIndex st =? -1 then 0
    else Z.rem (currentIndex st + dir + 5) 5.
Proof. unfold changeTrack. by rewrite playSongAtIndex_index. Qed.

Lemma clickPlay_index song st :
  currentIndex (clickPlay song st)
  = findIndex (fun x => Song.id x =? Song.id song) SONGS.
Proof. unfold clickPlay. by rewrite playSongAtIndex_index. Qed.

Lemma play_step_songs st st' : play_step st st' -> songs st' = songs st.
Proof.
  intros []; unfold clickPlay, onEnded, changeTrack;
    by rewrite playSongAtIndex_songs.
Qed.

Lemma chosen_in_catalog user l song :
  chosen_songs user = Ok l -> In song l -> In song SONGS.
Proof.
  unfold chosen_songs. destruct (truthy user); [|by intros [= <-]].
  destruct (prop user "mood") as [m|e]; [|done]. cbn [bind].
  destruct (truthy_opt m); intros Heq Hin; apply Ok_inj in Heq;
    rewrite <- Heq in Hin; [|done].
  by apply filter_In in Hin as [Hin _].
Qed.

Lemma init_in_catalog audio0 now0 ls st0 song :
  initSuggestionsPage audio0 now0 ls = Ok st0 ->
  In song (songs st0) -> In song SONGS.
Proof.
  unfold initSuggestionsPage.
  destruct (loadFromStorage STORAGE_KEYS.USER JNull ls) as [user|]; [|done].
  cbn [bind]. destruct (chosen_songs user) as [l|] eqn:El; [|done].
  cbn [bind]. intros Heq Hin. apply Ok_inj in Heq. rewrite <- Heq in Hin.
  cbn [songs] in Hin. by apply (chosen_in_catalog user l).
Qed.

Lemma rtc_play_songs st0 st : rtc play_step st0 st -> songs st = songs st0.
Proof.
  induction 1 as [|st0 st1 st Hstep _ IH]; [done|].
  rewrite IH. by apply play_step_songs.
Qed.

Lemma page_songs ls st song :
  page_of ls st -> In song (songs st) -> In song SONGS.
Proof.
  intros (audio0 & now0 & st0 & Hinit & Hrun) Hin.
  apply (init_in_catalog audio0 now0 ls st0); [done|].
  by rewrite <- (rtc_play_songs st0 st).
Qed.

Lemma play_step_index st st' :
  (forall song, In song (songs st) -> In song SONGS) ->
  currentIndex st = -1 \/ 0 <= currentIndex st < Z.of_nat (List.length SONGS) ->
  play_step st st' ->
  0 <= currentIndex st' < Z.of_nat (List.length SONGS).
Proof.
  intros Hsongs Hidx Hstep.
  destruct Hstep as [song st Hin| st | st | st];
    [|unfold onEnded..]; rewrite ?clickPlay_index, ?changeTrack_index.
  - apply (findIndex_found _ SONGS song); [by apply Hsongs | apply Z.eqb_refl].
  - change (Z.of_nat (List.length SONGS)) with 5 in *.
    destruct (Z.eqb_spec (currentIndex st) (-1)); [lia|].
    pose proof (Z.rem_bound_pos (currentIndex st + -1 + 5) 5). lia.
  - change (Z.of_nat (List.length SONGS)) with 5 in *.
    destruct (Z.eqb_spec (currentIndex st) (-1)); [lia|].
    pose proof (Z.rem_bound_pos (currentIndex st + 1 + 5) 5). lia.
  - change (Z.of_nat (List.length SONGS)) with 5 in *.
    destruct (Z.eqb_spec (currentIndex st) (-1)); [lia|].
    pose proof (Z.rem_bound_pos (currentIndex st + 1 + 5) 5). lia.
Qed.

(** The index is unset or an index into the catalog. *)
Lemma page_index ls st :
  page_of ls st ->
  currentIndex st = -1 \/ 0 <= currentIndex st < Z.of_nat (List.length SONGS).
Proof.
  intros (audio0 & now0 & st0 & Hinit & Hrun).
  assert (Hsongs : forall st, rtc play_step st0 st ->
                              forall song, In song (songs st) -> In song SONGS).
  { intros st1 H1 song. apply (page_songs ls). by exists audio0, now0, st0. }
  revert st Hrun. apply rtc_ind_r; [|intros st1 st Hreach Hstep IH].
  - left.
    unfold initSuggestionsPage in Hinit.
    destruct (loadFromStorage STORAGE_KEYS.USER JNull ls) as [user|]; [|done].
    cbn [bind] in Hinit. destruct (chosen_songs user) as [l|]; [|done].
    cbn [bind] in Hinit. apply Ok_inj in Hinit. by rewrite <- Hinit.
  - right. apply (play_step_index st1 st); [by apply Hsongs|done|done].
Qed.

Lemma party_page_init :
  initSuggestionsPage silent NowBlank party_prefs = Ok party_page.
Proof. vm_compute. reflexivity. Qed.

End PlayerFacts.

(** C2, as stated, fails: with the mood [party] stored, one song is
    listed, so index 0 is the last index of the displayed list; Next
    from index 0 yields 1, not 0, which is what moving by one modulo the
    length of the displayed list would give. *)
Lemma changeTrack_not_modulo_displayed :
  initSuggestionsPage silent NowBlank party_prefs = Ok party_page /\
  List.length (songs party_page) = 1%nat /\
  currentIndex (changeTrack 1 party_page) = 0 /\
  currentIndex (changeTrack 1 (changeTrack 1 party_page)) = 1 /\
  (0 + 1) mod Z.of_nat (List.length (songs (changeTrack 1 party_page))) = 0.
Proof. split; [apply party_page_init|]. repeat split. Qed.

(** C2, amended: on a suggestions page, for a direction of -1 or +1,
    [changeTrack] selects index 0 from the unset state and otherwise
    moves the index by the direction modulo the length of the catalog,
    whatever is listed; from the last index of the catalog Next yields
    0, and from 0 Prev yields the last index of the catalog. *)
Theorem changeTrack_modulo_catalog (ls : LocalStorage) (st : Suggestions) (dir : Z) :
  page_of ls st -> dir = -1 \/ dir = 1 ->
  (currentIndex st = -1 -> currentIndex (changeTrack dir st) = 0) /\
  (currentIndex st <> -1 ->
   currentIndex (changeTrack dir st)
   = (currentIndex st + dir) mod Z.of_nat (List.length SONGS)) /\
  (currentIndex st = Z.of_nat (List.length SONGS) - 1 ->
   currentIndex (changeTrack 1 st) = 0) /\
  (currentIndex st = 0 ->
   currentIndex (changeTrack (-1) st) = Z.of_nat (List.length SONGS) - 1).
Proof.
  intros Hpage Hdir. pose proof (page_index ls st Hpage) as Hidx.
  rewrite !changeTrack_index. change (Z.of_nat (List.length SONGS)) with 5 in *.
  repeat split.
  - by intros ->.
  - intros Hset. destruct (Z.eqb_spec (currentIndex st) (-1)); [done|].
    rewrite Z.rem_mod_nonneg by lia.
    replace (currentIndex st + dir + 5) with (currentIndex st + dir + 1 * 5) by lia.
    apply Z_mod_plus_full.
  - by intros ->.
  - by intros ->.
Qed.

Lemma changeTrack_modulo_catalog_witness :
  currentIndex (changeTrack 1 party_page) = 0 /\
  currentIndex (changeTrack 1 (clickPlay neon_party party_page)) = 3.
Proof.
  assert (H0 : page_of party_prefs party_page).
  { exists silent, NowBlank, party_page. split; [apply party_page_init|constructor]. }
  assert (H1 : page_of party_prefs (clickPlay neon_party party_page)).
  { exists silent, NowBlank, party_page. split; [apply party_page_init|].
    apply rtc_once. apply play_click. simpl. by left. }
  split.
  - destruct (changeTrack_modulo_catalog party_prefs party_page 1 H0) as (H & _);
      [by right|]. by apply H.
  - destruct (changeTrack_modulo_catalog party_prefs
                (clickPlay neon_party party_page) 1 H1) as (_ & H & _);
      [by right|]. rewrite H; [reflexivity|]. discriminate.
Defined.

(** C3, as stated, fails: with the mood [party] stored the displayed
    list has one song; a click on its Play button sets the index to 2,
    the position of the song in the catalog, which is no index into the
    displayed list. *)
Lemma clickPlay_index_outside_displayed :
  initSuggestionsPage silent NowBlank party_prefs = Ok party_page /\
  In neon_party (songs party_page) /\
  currentIndex (clickPlay neon_party party_page) = 2 /\
  ~ (currentIndex (clickPlay neon_party party_page)
     < Z.of_nat (List.length (songs (clickPlay neon_party party_page)))).
Proof.
  split; [apply party_page_init|]. split; [by left|]. split; [reflexivity|].
  vm_compute. discriminate.
Qed.

(** C3, amended: after every play action (a click on Play of a listed
    song, Prev, Next, or the end of a track) on a suggestions page, for
    every content of the storage, the index is a valid index into the
    catalog. *)
Theorem play_action_index_in_catalog (ls : LocalStorage) (st st' : Suggestions) :
  page_of ls st -> play_step st st' ->
  0 <= currentIndex st' < Z.of_nat (List.length SONGS).
Proof.
  intros Hpage Hstep. apply (play_step_index st st'); [|by apply (page_index ls)|done].
  intros song. by apply (page_songs ls).
Qed.

Lemma play_action_index_in_catalog_witness :
  0 <= currentIndex (clickPlay neon_party party_page) < Z.of_nat (List.length SONGS).
Proof.
  apply (play_action_index_in_catalog party_prefs party_page).
  - exists silent, NowBlank, party_page. split; [vm_compute; reflexivity|constructor].
  - apply play_click. simpl. left. reflexivity.
Defined.

(** ** The list of suggestions *)

Lemma filter_none {A : Type} (f : A -> bool) (l : list A) :
  (forall x, In x l -> f x = false) -> List.filter f l = [].
Proof.
  induction l as [|x l IH]; [done|]. intros H. cbn [List.filter].
  rewrite (H x) by by left. apply IH. intros y Hy. apply H. by right.
Qed.

Section SuggestionsFacts.

Lemma user_record_canonical name email mood now_iso :
  canonical (user_record name email mood now_iso).
Proof. split; [|done]. cbn [map fst]. by compute_done. Qed.

Lemma init_without_prefs audio0 now0 (ls : LocalStorage) :
  ls !! STORAGE_KEYS.USER = None ->
  initSuggestionsPage audio0 now0 ls
  = Ok {| currentIndex := -1; audio := audio0; now := now0; songs := SONGS |}.
Proof.
  intros H. unfold initSuggestionsPage. by rewrite load_missing.
Qed.

Lemma init_with_prefs audio0 now0 (ls : LocalStorage) name email mood now_iso :
  ls !! STORAGE_KEYS.USER = Some (stringify (user_record name email mood now_iso)) ->
  initSuggestionsPage audio0 now0 ls
  = Ok {| currentIndex := -1; audio := audio0; now := now0;
          songs := if String.eqb mood ""
                   then SONGS
                   else List.filter (fun s => String.eqb (Song.mood s) mood) SONGS |}.
Proof.
  intros H. unfold initSuggestionsPage.
  rewrite (load_stored _ _ _ (user_record name email mood now_iso));
    [|apply user_record_canonical|done].
  cbn [bind]. unfold chosen_songs, user_record.
  cbn [truthy prop obj_get bind String.eqb Ascii.eqb Bool.eqb truthy_opt].
  by destruct (String.eqb mood "").
Qed.

End SuggestionsFacts.

(** C7: the list the suggestions page shows.  With preferences stored
    whose mood is not empty, it is the catalog filtered to the songs of
    that mood, in catalog order; with no preferences stored, or with an
    empty mood, it is the whole catalog; with a mood that no song has it
    is empty, and the page is built all the same. *)
Theorem suggestions_list (audio0 : Audio) (now0 : NowText) (ls : LocalStorage) :
  (ls !! STORAGE_KEYS.USER = None ->
   exists st, initSuggestionsPage audio0 now0 ls = Ok st /\ songs st = SONGS) /\
  (forall name email mood now_iso,
      ls !! STORAGE_KEYS.USER
      = Some (stringify (user_record name email mood now_iso)) ->
      exists st,
        initSuggestionsPage audio0 now0 ls = Ok st /\
        (mood <> ""%string ->
         songs st = List.filter (fun s => String.eqb (Song.mood s) mood) SONGS) /\
        (mood = ""%string -> songs st = SONGS) /\
        (mood <> ""%string ->
         (forall s, In s SONGS -> Song.mood s <> mood) -> songs st = [])).
Proof.
  split.
  - intros H. eexists. split; [by apply init_without_prefs|done].
  - intros name email mood now_iso H. eexists.
    split; [by apply (init_with_prefs _ _ _ name email mood now_iso)|].
    cbn [songs]. destruct (String.eqb_spec mood "") as [->|Hne].
    + repeat split; done.
    + repeat split; try done. intros _ Hnone.
      apply filter_none. intros s Hs. apply String.eqb_neq. by apply Hnone.
Qed.

Lemma suggestions_list_witness :
  (exists st, initSuggestionsPage silent NowBlank ∅ = Ok st /\ songs st = SONGS) /\
  (exists st, initSuggestionsPage silent NowBlank party_prefs = Ok st /\
              songs st = [neon_party]) /\
  (exists st, initSuggestionsPage silent NowBlank jazz_prefs = Ok st /\
              songs st = []).
Proof.
  split; [|split].
  - destruct (suggestions_list silent NowBlank ∅) as (H & _).
    apply H. apply lookup_empty.
  - destruct (suggestions_list silent NowBlank party_prefs) as (_ & H).
    destruct (H "Al" "a@b.com" "party" "2024-05-01T10:00:00.000Z")%string
      as (st & Hinit & Hfilter & _).
    { apply lookup_insert_eq. }
    exists st. split; [exact Hinit|]. rewrite Hfilter; [reflexivity|discriminate].
  - destruct (suggestions_list silent NowBlank jazz_prefs) as (_ & H).
    destruct (H "Al" "a@b.com" "jazz" "2024-05-01T10:00:00.000Z")%string
      as (st & Hinit & _ & _ & Hnone).
    { apply lookup_insert_eq. }
    exists st. split; [exact Hinit|]. apply Hnone; [discriminate|].
    intros s Hs. simpl in Hs.
    repeat (destruct Hs as [<- | Hs]; [discriminate|]). destruct Hs.
Defined.

(** ** Clearing the saved list *)

(** C9: the clear-all control removes the saved-songs record from the
    storage, whatever it held: a load of the key then answers with the
    empty-list fallback, the list is rendered as the empty-state
    placeholder, and the other keys are as they were. *)
Theorem clear_all (ls : LocalStorage) :
  exists ls',
    clickClear ls = Ok (ls', Placeholder) /\
    ls' !! STORAGE_KEYS.SAVED = None /\
    loadFromStorage STORAGE_KEYS.SAVED (JArr []) ls' = Ok (JArr []) /\
    renderSavedSongs ls' = Ok Placeholder /\
    (forall key, key <> STORAGE_KEYS.SAVED -> ls' !! key = ls !! key).
Proof.
  exists (delete STORAGE_KEYS.SAVED ls).
  assert (Hgone : delete STORAGE_KEYS.SAVED ls !! STORAGE_KEYS.SAVED = None)
    by apply lookup_delete_eq.
  assert (Hload : loadFromStorage STORAGE_KEYS.SAVED (JArr [])
                    (delete STORAGE_KEYS.SAVED ls) = Ok (JArr []))
    by by apply load_missing.
  assert (Hrender : renderSavedSongs (delete STORAGE_KEYS.SAVED ls) = Ok Placeholder).
  { unfold renderSavedSongs. by rewrite Hload. }
  repeat split; try done.
  - unfold clickClear. by rewrite Hrender.
  - intros key Hkey. by apply lookup_delete_ne.
Qed.

Lemma clear_all_witness :
  exists ls',
    clickClear party_prefs = Ok (ls', Placeholder) /\
    ls' !! STORAGE_KEYS.USER = party_prefs !! STORAGE_KEYS.USER.
Proof.
  destruct (clear_all party_prefs) as (ls' & Hclear & _ & _ & _ & Hother).
  exists ls'. split; [exact Hclear|]. apply Hother. discriminate.
Defined.

(** ** Auto-play from the link *)

(** C8: for a song of the catalog, a page that has a playback element
    (as the suggestions page has) and was opened with the query
    [play=<id of the song>] has, once the delayed attempt has run, the
    address of that song as the source of the playback element, with
    one more call of [play()]; a now-playing element shows its title. *)
Theorem autoplay_sets_source (song : Song.t) (search : string) (dom : Dom)
    (audioEl : Audio) :
  In song SONGS -> search <> ""%string -> dom_audio dom = Some audioEl ->
  let dom' := autoPlay search (Some (String_of_number (Song.id song))) dom in
  dom_audio dom' = Some {| src := Song.url song; plays := S (plays audioEl) |} /\
  (dom_now dom <> None -> dom_now dom' = Some (NowPlayingTitle (Song.title song))).
Proof.
  intros Hin Hsearch Haudio. unfold autoPlay, checkAutoPlayOnLoad.
  destruct (String.eqb_spec search "") as [->|_]; [done|].
  destruct dom as [a n]. cbn [dom_audio dom_now] in *. subst a.
  simpl in Hin.
  repeat (destruct Hin as [<- | Hin];
          [vm_compute; split; [reflexivity|]; by destruct n|]).
  destruct Hin.
Qed.

Lemma autoplay_sets_source_witness :
  dom_audio (autoPlay "?play=3" (Some "3"%string) (suggestions_dom party_page))
  = Some {| src := "https://www.soundhelix.com/examples/mp3/SoundHelix-Song-3.mp3";
            plays := 1 |}.
Proof.
  apply (autoplay_sets_source neon_party "?play=3" (suggestions_dom party_page) silent).
  - vm_compute. tauto.
  - discriminate.
  - reflexivity.
Defined.

(** C10: when the value of the [play] parameter is the id of no song
    of the catalog, the delayed attempt changes nothing: the document,
    and with it the source of the playback element and the now-playing
    text, is as before. *)
Theorem autoplay_unknown_id (search playId : string) (dom : Dom) :
  (forall s, In s SONGS -> String_of_number (Song.id s) <> playId) ->
  attemptPlay playId dom = dom /\ autoPlay search (Some playId) dom = dom.
Proof.
  intros Hnone.
  assert (Hattempt : attemptPlay playId dom = dom).
  { unfold attemptPlay. rewrite findIndex_none; [done|].
    intros s Hs. apply String.eqb_neq. by apply Hnone. }
  split; [done|]. unfold autoPlay.
  by destruct (checkAutoPlayOnLoad search (Some playId)) as [i|] eqn:E;
    [unfold checkAutoPlayOnLoad in E; destruct (String.eqb search "");
     [done|destruct (String.eqb playId ""); [done|injection E as <-]]|].
Qed.

Lemma autoplay_unknown_id_witness :
  autoPlay "?play=abc" (Some "abc"%string) (suggestions_dom party_page)
  = suggestions_dom party_page.
Proof.
  apply (autoplay_unknown_id "?play=abc" "abc" (suggestions_dom party_page)).
  intros s Hs. simpl in Hs.
  repeat (destruct Hs as [<- | Hs]; [discriminate|]). destruct Hs.
Defined.

(** ** The saved list *)

Section SavedFacts.

Lemma saved_entry_fields e :
  saved_entry e
  = JObj (Song.fields (saved_song e) ++ [("savedAt"%string, JStr (savedAt e))]).
Proof. reflexivity. Qed.

Lemma saved_entry_canonical e : canonical (saved_entry e).
Proof.
  rewrite saved_entry_fields. split; [|cbn; tauto].
  cbn [map fst Song.fields app]. by compute_done.
Qed.

Lemma saved_array_canonical l : canonical (saved_array l).
Proof.
  unfold saved_array. rewrite canonical_arr.
  induction l as [|e l IH]; [done|]. split; [apply saved_entry_canonical|done].
Qed.

Lemma saved_entry_id e : prop (saved_entry e) "id" = Ok (Some (JNum (saved_id e))).
Proof. reflexivity. Qed.

Lemma persisted_save (ls : LocalStorage) l :
  persisted (saveToStorage STORAGE_KEYS.SAVED (saved_array l) ls) l.
Proof. apply load_save, saved_array_canonical. Qed.

Lemma persisted_inj ls l l' : persisted ls l -> persisted ls l' -> l = l'.
Proof.
  unfold persisted. intros -> H. apply Ok_inj in H.
  unfold saved_array in H. injection H as H.
  revert l' H. induction l as [|e l IH]; intros [|e' l'] H; try done.
  cbn [map] in H.
  assert (He : saved_entry e = saved_entry e') by congruence.
  assert (Hl : map saved_entry l = map saved_entry l') by congruence.
  f_equal; [|by apply IH].
  destruct e as [[] t], e' as [[] t']. rewrite !saved_entry_fields in He.
  cbn in He.
  injection He as -> -> -> -> -> -> ->. reflexivity.
Qed.

Lemma some_saved id l :
  array_some
    (fun s => i <- prop s "id" ;; Ok (strict_eq false i (Some (JNum id))))
    (map saved_entry l)
  = Ok (existsb (fun e => saved_id e =? id) l).
Proof.
  induction l as [|e l IH]; [done|].
  cbn [map array_some existsb]. rewrite saved_entry_id. cbn [bind strict_eq].
  destruct (saved_id e =? id); [done|]. by rewrite IH.
Qed.

(** What [saveSong] does to a saved list. *)
Lemma saveSong_persisted (ls : LocalStorage) l song now_iso :
  persisted ls l ->
  saveSong song now_iso ls
  = Ok (if existsb (fun e => saved_id e =? Song.id song) l then ls
        else saveToStorage STORAGE_KEYS.SAVED
               (saved_array (l ++ [{| saved_song := song; savedAt := now_iso |}]))
               ls).
Proof.
  intros H. unfold saveSong. rewrite H. cbn [bind saved_array].
  rewrite some_saved. cbn [bind].
  destruct (existsb _ l); [done|].
  unfold saved_array. by rewrite map_app.
Qed.

Lemma existsb_saved_id id l :
  existsb (fun e => saved_id e =? id) l = true <-> id ∈ map saved_id l.
Proof.
  rewrite existsb_exists, list_elem_of_In, in_map_iff. split.
  - intros (e & Hin & He). exists e. split; [lia|done].
  - intros (e & <- & Hin). exists e. split; [done|lia].
Qed.

Lemma count_unique id l :
  NoDup (map saved_id l) -> id ∈ map saved_id l ->
  List.length (List.filter (fun e => saved_id e =? id) l) = 1%nat.
Proof.
  induction l as [|e l IH]; cbn [map List.filter].
  { intros _ H. by apply elem_of_nil in H. }
  intros Hnd Hin. apply NoDup_cons in Hnd as [Hfresh Hnd].
  destruct (Z.eqb_spec (saved_id e) id) as [<-|Hne].
  - cbn [List.length]. f_equal. rewrite filter_none; [done|].
    intros x Hx. apply Z.eqb_neq. intros Heq. apply Hfresh. rewrite <- Heq.
    apply list_elem_of_In, in_map. done.
  - apply IH; [done|]. apply elem_of_cons in Hin as [Heq|Hin]; [|done].
    by symmetry in Heq.
Qed.

Lemma render_items saved i l :
  array_map (render_item saved) i (map saved_entry l)
  = Ok (saved_items saved i l).
Proof.
  revert i. induction l as [|e l IH]; intros i; [done|].
  cbn [map array_map saved_items]. rewrite IH. reflexivity.
Qed.

(** What [renderSavedSongs] shows for a saved list. *)
Lemma render_persisted (ls : LocalStorage) l :
  persisted ls l ->
  renderSavedSongs ls
  = Ok (match l with
        | [] => Placeholder
        | _ => Items (saved_items (map saved_entry l) 0 l)
        end).
Proof.
  intros H. unfold renderSavedSongs. rewrite H. cbn [bind saved_array].
  destruct l as [|e l]; [done|].
  rewrite length_map. cbn [List.length].
  destruct (Z.eqb_spec (Z.of_nat (S (List.length l))) 0) as [?|_]; [lia|].
  by rewrite render_items.
Qed.

Lemma saved_items_s saved i l :
  map item_s (saved_items saved i l) = map saved_entry l.
Proof.
  revert i. induction l as [|e l IH]; intros i; [done|].
  cbn [saved_items map item_s]. by rewrite IH.
Qed.

Lemma saved_items_shows saved i l : Forall2 shows (saved_items saved i l) l.
Proof.
  revert i. induction l as [|e l IH]; intros i; [constructor|].
  cbn [saved_items]. constructor; [by repeat split|apply IH].
Qed.

(** What is rendered from a persisted list shows that list. *)
Lemma view_persisted (ls : LocalStorage) l view :
  persisted ls l -> renderSavedSongs ls = Ok view -> view_shows view l.
Proof.
  intros Hp Hview. rewrite (render_persisted ls l Hp) in Hview.
  apply Ok_inj in Hview as <-. destruct l as [|e l]; [done|].
  split; [done|]. apply saved_items_shows.
Qed.

Lemma displayed_persisted (ls : LocalStorage) l view :
  persisted ls l -> renderSavedSongs ls = Ok view ->
  displayed view = map saved_entry l.
Proof.
  intros H Hview. rewrite (render_persisted ls l H) in Hview.
  apply Ok_inj in Hview. subst view.
  destruct l as [|e l]; [done|]. cbn [displayed]. apply saved_items_s.
Qed.

Lemma saved_items_in saved i l li :
  In li (saved_items saved i l) ->
  exists e, In e l /\ item_s li = saved_entry e /\
            item_id li = Some (JNum (saved_id e)) /\ item_saved li = saved.
Proof.
  revert i. induction l as [|e l IH]; intros i; [done|].
  cbn [saved_items]. intros [<- | Hin].
  - exists e. repeat split. by left.
  - destruct (IH _ Hin) as (e' & He' & H). exists e'. split; [by right|done].
Qed.

Lemma saved_items_of saved i l e :
  In e l ->
  exists li, In li (saved_items saved i l) /\ item_s li = saved_entry e /\
             item_id li = Some (JNum (saved_id e)).
Proof.
  revert i. induction l as [|e' l IH]; intros i; [done|].
  cbn [saved_items]. intros [-> | Hin].
  - eexists. split; [by left|]. done.
  - destruct (IH (S i) Hin) as (li & Hli & H). exists li. split; [by right|done].
Qed.

Lemma filter_saved id same i l :
  array_filter
    (fun j x => xi <- prop x "id" ;;
                Ok (negb (strict_eq (same j) xi (Some (JNum id)))))
    i (map saved_entry l)
  = Ok (map saved_entry (without id l)).
Proof.
  revert i. induction l as [|e l IH]; intros i; [done|].
  cbn [map array_filter without List.filter]. rewrite saved_entry_id.
  cbn [bind strict_eq]. rewrite IH. cbn [bind].
  unfold without. by destruct (saved_id e =? id).
Qed.

(** What a click on Remove does, for an entry of the list that was
    rendered from the storage. *)
Lemma clickRemove_persisted (ls : LocalStorage) l li e :
  item_s li = saved_entry e -> item_saved li = map saved_entry l ->
  let ls' := saveToStorage STORAGE_KEYS.SAVED
               (saved_array (without (saved_id e) l)) ls in
  exists view,
    clickRemove li ls = Ok (ls', view) /\
    renderSavedSongs ls' = Ok view /\
    persisted ls' (without (saved_id e) l).
Proof.
  intros Hs Hsaved ls'.
  assert (Hp : persisted ls' (without (saved_id e) l)) by apply persisted_save.
  pose proof (render_persisted ls' _ Hp) as Hrender.
  eexists. split; [|split; [exact Hrender|exact Hp]].
  assert (Hf : array_filter
                 (fun j x =>
                    xi <- prop x "id" ;;
                    si <- prop (saved_entry e) "id" ;;
                    Ok (negb (strict_eq (Nat.eqb j (item_index li)) xi si)))
                 0 (map saved_entry l)
               = Ok (map saved_entry (without (saved_id e) l)))
    by exact (filter_saved (saved_id e) (fun j => Nat.eqb j (item_index li)) 0 l).
  unfold clickRemove. rewrite Hs, Hsaved, Hf.
  cbn [bind]. fold (saved_array (without (saved_id e) l)). fold ls'.
  by rewrite Hrender.
Qed.

Lemma without_absent id l x : In x (without id l) -> saved_id x <> id.
Proof.
  unfold without. intros H. apply filter_In in H as [_ H].
  apply negb_true_iff in H. by apply Z.eqb_neq.
Qed.

Lemma without_kept id l x : In x l -> saved_id x <> id -> In x (without id l).
Proof.
  intros Hin Hne. apply filter_In. split; [done|].
  apply negb_true_iff. by apply Z.eqb_neq.
Qed.

Lemma without_NoDup id l :
  NoDup (map saved_id l) -> NoDup (map saved_id (without id l)).
Proof.
  induction l as [|e l IH]; [done|]. cbn [map without List.filter].
  intros Hnd. apply NoDup_cons in Hnd as [Hfresh Hnd].
  destruct (negb (saved_id e =? id)); [|by apply IH].
  cbn [map]. apply NoDup_cons. split; [|by apply IH].
  intros Hin. apply Hfresh. apply list_elem_of_In, in_map_iff in Hin
    as (x & Hx & Hin).
  apply list_elem_of_In, in_map_iff. exists x. split; [done|].
  by apply filter_In in Hin as [Hin _].
Qed.

End SavedFacts.

Section Reachability.

Lemma step_unique ls ls' l :
  step ls ls' -> persisted ls l -> NoDup (map saved_id l) ->
  exists l', persisted ls' l' /\ NoDup (map saved_id l').
Proof.
  intros Hstep Hp Hnd.
  destruct Hstep as [name email mood now_iso ls ls' H
                    | song now_iso ls ls' H
                    | ls lis li ls' view Hrender Hin H
                    | ls ls' view H].
  - exists l. split; [|done]. unfold submitPrefs in H.
    destruct (negb (ok _)); [done|]. injection H as <-.
    unfold persisted. by rewrite load_save_other.
  - rewrite (saveSong_persisted ls l song now_iso Hp) in H.
    apply Ok_inj in H.
    destruct (existsb _ l) eqn:E; subst ls'; [by exists l|].
    eexists. split; [apply persisted_save|].
    rewrite map_app. apply NoDup_app. split; [done|]. split.
    + intros x Hx Hx'. apply list_elem_of_singleton in Hx'. subst x.
      change (Song.id song ∈ map saved_id l) in Hx.
        apply existsb_saved_id in Hx. congruence.
    + apply NoDup_singleton.
  - rewrite (render_persisted ls l Hp) in Hrender. apply Ok_inj in Hrender.
    destruct l as [|e0 l0]; [done|].
    assert (Hlis : lis = saved_items (map saved_entry (e0 :: l0)) 0 (e0 :: l0))
      by congruence.
    rewrite Hlis in Hin.
    apply saved_items_in in Hin as (e & He & Hs & _ & Hsaved).
    destruct (clickRemove_persisted ls _ li e Hs Hsaved) as (view' & Hclick & _ & Hp').
    rewrite Hclick in H. injection H as <- _.
    eexists. split; [exact Hp'|]. by apply without_NoDup.
  - unfold clickClear in H.
    destruct (renderSavedSongs _) as [v|]; [|done]. injection H as <- _.
    exists []. split; [|apply NoDup_nil_2].
    unfold persisted. apply load_missing, lookup_delete_eq.
Qed.

(** No two entries of a saved list the handlers produced have the
    same id. *)
Lemma reachable_unique ls :
  reachable ls -> exists l, persisted ls l /\ NoDup (map saved_id l).
Proof.
  induction 1 as [ls H|ls ls' _ (l & Hp & Hnd) Hstep].
  - exists []. split; [by apply load_missing|apply NoDup_nil_2].
  - by apply (step_unique ls ls' l).
Qed.

Lemma saveSong_twice (ls : LocalStorage) l song t1 t2 :
  persisted ls l -> NoDup (map saved_id l) ->
  exists ls1 l1,
    saveSong song t1 ls = Ok ls1 /\
    saveSong song t2 ls1 = Ok ls1 /\
    persisted ls1 l1 /\
    NoDup (map saved_id l1) /\
    List.length (List.filter (fun e => saved_id e =? Song.id song) l1) = 1%nat /\
    (Song.id song ∈ map saved_id l -> ls1 = ls).
Proof.
  intros Hp Hnd.
  pose proof (saveSong_persisted ls l song t1 Hp) as H1.
  destruct (existsb (fun e => saved_id e =? Song.id song) l) eqn:E.
  - exists ls, l. repeat split; try done.
    + rewrite (saveSong_persisted ls l song t2 Hp). by rewrite E.
    + apply count_unique; [done|]. by apply existsb_saved_id.
  - set (l1 := l ++ [{| saved_song := song; savedAt := t1 |}]).
    set (ls1 := saveToStorage STORAGE_KEYS.SAVED (saved_array l1) ls) in *.
    assert (Hp1 : persisted ls1 l1) by apply persisted_save.
    assert (Hin : Song.id song ∈ map saved_id l1).
    { unfold l1. rewrite map_app. apply elem_of_app. right. by left. }
    assert (Hnd1 : NoDup (map saved_id l1)).
    { unfold l1. rewrite map_app. apply NoDup_app. split; [done|]. split.
      - intros x Hx Hx'. apply list_elem_of_singleton in Hx'. subst x.
        change (Song.id song ∈ map saved_id l) in Hx.
        apply existsb_saved_id in Hx. congruence.
      - apply NoDup_singleton. }
    exists ls1, l1. repeat split; try done.
    + rewrite (saveSong_persisted ls1 l1 song t2 Hp1).
      by rewrite (proj2 (existsb_saved_id _ _) Hin).
    + by apply count_unique.
    + intros Hold. apply existsb_saved_id in Hold. congruence.
Qed.

End Reachability.

(** C1: whatever the handlers made of the storage, the saved list has
    no two entries with the same id; and for every song, calling
    [saveSong] on it twice succeeds, the second call changes nothing
    (as does the first when an entry with the id of the song is already
    there), and the saved list then persisted has exactly one entry
    with that id and still no id twice. *)
Theorem saveSong_unique (ls : LocalStorage) :
  reachable ls ->
  exists l,
    persisted ls l /\ NoDup (map saved_id l) /\
    forall song t1 t2,
    exists ls1 l1,
      saveSong song t1 ls = Ok ls1 /\
      saveSong song t2 ls1 = Ok ls1 /\
      persisted ls1 l1 /\
      NoDup (map saved_id l1) /\
      List.length (List.filter (fun e => saved_id e =? Song.id song) l1) = 1%nat /\
      (Song.id song ∈ map saved_id l -> ls1 = ls).
Proof.
  intros Hreach. destruct (reachable_unique ls Hreach) as (l & Hp & Hnd).
  exists l. split; [done|]. split; [done|].
  intros song t1 t2. by apply saveSong_twice.
Qed.

Lemma saveSong_unique_witness :
  exists l, persisted party_prefs l /\ NoDup (map saved_id l) /\
    exists ls1 l1,
      saveSong neon_party "2024-05-01T10:00:00.000Z" party_prefs = Ok ls1 /\
      saveSong neon_party "2024-05-02T11:30:00.000Z" ls1 = Ok ls1 /\
      persisted ls1 l1 /\
      List.length (List.filter (fun e => saved_id e =? 3) l1) = 1%nat.
Proof.
  destruct (saveSong_unique party_prefs) as (l & Hp & Hnd & H).
  { apply reach_fresh. unfold party_prefs, saveToStorage.
    rewrite lookup_insert_ne by discriminate. apply lookup_empty. }
  exists l. split; [exact Hp|]. split; [exact Hnd|].
  destruct (H neon_party "2024-05-01T10:00:00.000Z" "2024-05-02T11:30:00.000Z")%string
    as (ls1 & l1 & H1 & H2 & Hp1 & _ & Hcount & _).
  exists ls1, l1. repeat split; assumption.
Defined.

(** C6: for a list of saved Catalog songs and an entry of it, the page
    shows the list, one row per entry, and has a Remove button for the
    id of that entry; a click on it persists the saved list without
    the entries of that id, the other entries as they were and in
    their order, and renders again from the storage: the page then
    shows the new persisted list, row by row the title, artist, mood,
    address and id of its entries, or the placeholder when the list is
    empty. *)
Theorem remove_saved (ls : LocalStorage) (l : list SavedSong) (e : SavedSong) :
  persisted ls l -> of_catalog l -> In e l ->
  exists lis,
    renderSavedSongs ls = Ok (Items lis) /\
    Forall2 shows lis l /\
    map item_s lis = map saved_entry l /\
    (exists li, In li lis /\ item_id li = Some (JNum (saved_id e))) /\
    forall li,
      In li lis -> item_id li = Some (JNum (saved_id e)) ->
      exists ls' view,
        clickRemove li ls = Ok (ls', view) /\
        persisted ls' (without (saved_id e) l) /\
        (forall x, In x (without (saved_id e) l) -> saved_id x <> saved_id e) /\
        (forall x, In x l -> saved_id x <> saved_id e ->
                   In x (without (saved_id e) l)) /\
        renderSavedSongs ls' = Ok view /\
        view_shows view (without (saved_id e) l) /\
        loadFromStorage STORAGE_KEYS.SAVED (JArr []) ls' = Ok (JArr (displayed view)).
Proof.
  intros Hp _ He.
  pose proof (render_persisted ls l Hp) as Hrender.
  destruct l as [|e0 l0] eqn:El; [done|]. rewrite <- El in *.
  exists (saved_items (map saved_entry l) 0 l).
  split; [by rewrite Hrender, El|]. split; [apply saved_items_shows|].
  split; [apply saved_items_s|]. split.
  { destruct (saved_items_of (map saved_entry l) 0%nat l e He) as (li & Hli & _ & Hid).
    by exists li. }
  intros li Hli Hid.
  apply saved_items_in in Hli as (e' & He' & Hs & Hid' & Hsaved).
  assert (Hsame : saved_id e' = saved_id e) by congruence.
  destruct (clickRemove_persisted ls l li e' Hs Hsaved) as (view & Hclick & Hview & Hp').
  rewrite Hsame in *.
  eexists _, view. split; [exact Hclick|]. split; [exact Hp'|].
  split; [apply without_absent|]. split; [apply without_kept|].
  split; [exact Hview|]. split; [by apply (view_persisted _ _ _ Hp')|].
  rewrite (displayed_persisted _ _ _ Hp' Hview). exact Hp'.
Qed.

Lemma remove_saved_witness :
  exists lis li ls' view,
    renderSavedSongs two_saved = Ok (Items lis) /\
    Forall2 shows lis [saved_neon; saved_calm] /\
    In li lis /\
    clickRemove li two_saved = Ok (ls', view) /\
    persisted ls' [saved_calm] /\
    view_shows view [saved_calm] /\
    displayed view = [saved_entry saved_calm].
Proof.
  destruct (remove_saved two_saved [saved_neon; saved_calm] saved_neon)
    as (lis & Hrender & Hrows & _ & (li & Hli & Hid) & Hall).
  { apply persisted_save. }
  { constructor; [right; right; left; reflexivity|].
    constructor; [left; reflexivity | constructor]. }
  { left. reflexivity. }
  destruct (Hall li Hli Hid) as (ls' & view & Hclick & Hp & _ & _ & Hview & Hshows & _).
  exists lis, li, ls', view.
  split; [exact Hrender|]. split; [exact Hrows|]. split; [exact Hli|].
  split; [exact Hclick|]. split; [exact Hp|]. split; [exact Hshows|].
  exact (displayed_persisted ls' [saved_calm] view Hp Hview).
Defined.

(** ** The model runs *)

Example stored_text_read_back :
  parse (stringify (saved_array [saved_neon; saved_calm]))
  = Some (saved_array [saved_neon; saved_calm]).
Proof. vm_compute. reflexivity. Qed.

Example save_then_remove :
  (ls1 <- saveSong neon_party "2024-05-01T10:00:00.000Z" ∅ ;;
   ls2 <- saveSong (Song.mk 1 "Calm Breeze" "Ocean Studio" "chill"
                      "https://www.soundhelix.com/examples/mp3/SoundHelix-Song-1.mp3"
                      320) "2024-05-01T10:05:00.000Z" ls1 ;;
   view <- renderSavedSongs ls2 ;;
   match view with
   | Items (li :: _) =>
       after <- clickRemove li ls2 ;;
       Ok (displayed (snd after))
   | _ => Ok []
   end)
  = Ok [saved_entry saved_calm].
Proof. vm_compute. reflexivity. Qed.

Example next_wraps_over_catalog :
  map currentIndex
    [changeTrack 1 party_page;
     changeTrack 1 (set_currentIndex 4 party_page);
     changeTrack (-1) (set_currentIndex 0 party_page)]
  = [0; 0; 4].
Proof. reflexivity. Qed.

(** * Further properties *)

(** ** Storage *)

(** X1: [saveToStorage] overwrites: after two saves under one key the
    storage is as after the second alone, a load yields the second
    value, and the other keys are as they were. *)
Theorem saveToStorage_last_wins (key : string) (v w fallback : json)
    (ls : LocalStorage) :
  canonical v ->
  saveToStorage key v (saveToStorage key w ls) = saveToStorage key v ls /\
  loadFromStorage key fallback (saveToStorage key v (saveToStorage key w ls)) = Ok v /\
  (forall key', key' <> key -> saveToStorage key v ls !! key' = ls !! key').
Proof.
  intros Hcan. split; [|split].
  - unfold saveToStorage. apply insert_insert_eq.
  - by apply load_save.
  - intros key' Hne. unfold saveToStorage. by apply lookup_insert_ne.
Qed.

Lemma saveToStorage_last_wins_witness :
  loadFromStorage "k" JNull
    (saveToStorage "k" (JNum 2) (saveToStorage "k" (JStr "one") ∅))
  = Ok (JNum 2).
Proof.
  destruct (saveToStorage_last_wins "k" (JNum 2) (JStr "one") JNull ∅) as (_ & H & _).
  - exact I.
  - exact H.
Defined.

(** ** White space *)

Section TrimFacts.

Lemma trim_start_head cs :
  match trim_start cs with
  | [] => True
  | c :: _ => is_space c = false
  end.
Proof.
  induction cs as [|c cs IH]; [done|]. cbn [trim_start].
  by destruct (is_space c) eqn:E.
Qed.

Lemma trim_start_fixed cs :
  match cs with [] => True | c :: _ => is_space c = false end ->
  trim_start cs = cs.
Proof. destruct cs as [|c cs]; [done|]. cbn [trim_start]. by intros ->. Qed.

Lemma trim_start_suffix cs : exists pre, cs = pre ++ trim_start cs.
Proof.
  induction cs as [|c cs [pre IH]]; [by exists []|]. cbn [trim_start].
  destruct (is_space c); [|by exists []].
  exists (c :: pre). cbn [app]. by f_equal.
Qed.

Lemma rev_head_of_suffix (pre l : list ascii) :
  l <> [] ->
  match rev (pre ++ l) with [] => True | c :: _ => is_space c = false end ->
  match rev l with [] => True | c :: _ => is_space c = false end.
Proof.
  intros Hl. rewrite rev_app_distr.
  destruct (rev l) as [|c t] eqn:E; [|done].
  apply (f_equal (@rev ascii)) in E. rewrite rev_involutive in E. done.
Qed.

(** Trimming twice is trimming once. *)
Lemma trim_idempotent s : trim (trim s) = trim s.
Proof.
  unfold trim, chars. rewrite list_ascii_of_string_of_list_ascii.
  set (inner := trim_start (list_ascii_of_string s)).
  set (y := trim_start (rev inner)).
  assert (Hinner : match inner with [] => True | c :: _ => is_space c = false end)
    by apply trim_start_head.
  assert (Hy : match y with [] => True | c :: _ => is_space c = false end)
    by apply trim_start_head.
  assert (Hrev : match rev y with [] => True | c :: _ => is_space c = false end).
  { destruct (trim_start_suffix (rev inner)) as [pre Hpre]. fold y in Hpre.
    destruct y as [|c0 y0] eqn:Ey; [done|]. rewrite <- Ey in *.
    apply (rev_head_of_suffix pre y); [by rewrite Ey|].
    rewrite <- Hpre, rev_involutive. exact Hinner. }
  rewrite (trim_start_fixed (rev y) Hrev), rev_involutive.
  by rewrite (trim_start_fixed y Hy).
Qed.

Lemma trim_empty : trim "" = ""%string.
Proof. reflexivity. Qed.

End TrimFacts.

(** ** The validator and the form *)

Section FormFacts.

Lemma validateForm_ok name email mood :
  ok (validateForm name email mood) = true <->
  ~ name_short name /\ email_shape email /\ mood <> ""%string.
Proof.
  pose proof (name_short_spec name) as Hn.
  pose proof (email_re_spec email) as He.
  unfold validateForm.
  destruct (String.eqb name "" || (Z.of_nat (String.length (trim name)) <? 2)).
  { cbn [ok not_ok]. split; [done|]. intros [H _]. exfalso. apply H. by apply Hn. }
  assert (Hlong : ~ name_short name) by (intros H; by apply Hn in H).
  destruct (test email_re email) eqn:Et.
  - assert (Hshape : email_shape email) by by apply He.
    assert (Hne : String.eqb email "" = false).
    { destruct (String.eqb_spec email "") as [->|]; [|done]. by vm_compute in Et. }
    rewrite Hne. cbn [negb orb].
    destruct (String.eqb_spec mood "") as [->|Hmood]; cbn [ok not_ok].
    + split; [done|]. by intros (_ & _ & H).
    + done.
  - rewrite orb_true_r. cbn [ok not_ok]. split; [done|].
    intros (_ & H & _). apply He in H. done.
Qed.

Lemma validateForm_message name email mood :
  message (validateForm name email mood) = None /\
  ok (validateForm name email mood) = true \/
  ok (validateForm name email mood) = false /\
  (message (validateForm name email mood) = Some name_message \/
   message (validateForm name email mood) = Some email_message \/
   message (validateForm name email mood) = Some mood_message).
Proof.
  unfold validateForm.
  destruct (_ || _); [right; split; [done|by left]|].
  destruct (_ || _); [right; split; [done|right; by left]|].
  destruct (String.eqb mood ""); [right; split; [done|right; by right]|].
  by left.
Qed.

Lemma email_shape_chars email :
  email_shape email ->
  Forall (fun c => is_space c = false) (chars email) /\
  (exists pre post,
      chars email = pre ++ "@"%char :: post /\ pre <> [] /\ In "."%char post) /\
  (5 <= String.length email)%nat.
Proof.
  intros (a & b & c & E & [Ha Halla] & [Hb Hallb] & [Hc Hallc]).
  split; [|split].
  - rewrite E. apply Forall_app. split; [done|]. apply Forall_cons. split; [done|].
    apply Forall_app. split; [done|]. by apply Forall_cons.
  - exists a, (b ++ "."%char :: c). split; [done|]. split; [done|].
    apply in_or_app. right. by left.
  - assert (Hlen : String.length email = List.length (chars email)).
    { unfold chars. clear. induction email as [|x s IH]; [done|].
      cbn. by rewrite IH. }
    rewrite Hlen, E. rewrite length_app. cbn [List.length].
    rewrite length_app. cbn [List.length].
    destruct a; [done|]. destruct b; [done|]. destruct c; [done|].
    cbn [List.length]. lia.
Qed.

Lemma name_long_trimmed name :
  ~ name_short name <-> (2 <= String.length (trim name))%nat.
Proof.
  unfold name_short. split.
  - intros H. destruct (decide (2 <= String.length (trim name))%nat); [done|].
    exfalso. apply H. right. lia.
  - intros H [-> | Hlt]; [|lia]. rewrite trim_empty in H. cbn in H. lia.
Qed.

End FormFacts.

(** X2: what an accepted form is.  [validateForm] answers ok exactly
    when the trimmed name has two characters or more, the email is of
    the shape word [@] word [.] word and the mood is not empty; an
    email it accepts has no white space, has an [@] after at least one
    character and a [.] somewhere after it, and five characters or
    more; and it answers with a message exactly when it answers
    not-ok, the message being one of the three of the script. *)
Theorem validateForm_accepts (name email mood : string) :
  (ok (validateForm name email mood) = true <->
   (2 <= String.length (trim name))%nat /\ email_shape email /\ mood <> ""%string) /\
  (ok (validateForm name email mood) = true ->
   Forall (fun c => is_space c = false) (chars email) /\
   (exists pre post,
       chars email = pre ++ "@"%char :: post /\ pre <> [] /\ In "."%char post) /\
   (5 <= String.length email)%nat) /\
  (message (validateForm name email mood) = None /\
   ok (validateForm name email mood) = true \/
   ok (validateForm name email mood) = false /\
   (message (validateForm name email mood) = Some name_message \/
    message (validateForm name email mood) = Some email_message \/
    message (validateForm name email mood) = Some mood_message)).
Proof.
  split; [|split].
  - rewrite validateForm_ok, name_long_trimmed. done.
  - intros H. apply validateForm_ok in H as (_ & H & _).
    by apply email_shape_chars.
  - apply validateForm_message.
Qed.

Lemma validateForm_accepts_witness :
  Forall (fun c => is_space c = false) (chars "a@b.com") /\
  (5 <= String.length "a@b.com")%nat.
Proof.
  destruct (validateForm_accepts "Al" "a@b.com" "chill") as (_ & H & _).
  destruct H as (Hspace & _ & Hlen); [reflexivity|].
  split; [exact Hspace | exact Hlen].
Defined.

(** ** The preferences page *)

Section PrefsFacts.

(** What a submit that got through says about the fields. *)
Lemma submitPrefs_inr name email mood now_iso (ls ls' : LocalStorage) :
  submitPrefs name email mood now_iso ls = inr ls' ->
  ok (validateForm (trim name) (trim email) mood) = true /\
  ls' = saveToStorage STORAGE_KEYS.USER
          (user_record (trim name) (trim email) mood now_iso) ls.
Proof.
  unfold submitPrefs.
  destruct (ok (validateForm (trim name) (trim email) mood)); cbn [negb]; [|done].
  by intros [= <-].
Qed.

Lemma accepted_fields name email mood :
  ok (validateForm (trim name) (trim email) mood) = true ->
  (2 <= String.length (trim name))%nat /\ trim name <> ""%string /\
  email_shape (trim email) /\ trim email <> ""%string /\ mood <> ""%string.
Proof.
  intros H. apply validateForm_ok in H as (Hn & He & Hm).
  apply name_long_trimmed in Hn. rewrite trim_idempotent in Hn.
  repeat split; try done.
  - intros E. rewrite E in Hn. cbn in Hn. lia.
  - intros E. rewrite E in He. apply email_shape_chars in He as (_ & _ & He).
    cbn in He. lia.
Qed.

Lemma truthy_JStr s : s <> ""%string -> truthy (JStr s) = true.
Proof. intros H. cbn. by destruct (String.eqb_spec s ""). Qed.

Lemma prefill_record form (ls : LocalStorage) name email mood now_iso :
  name <> ""%string -> email <> ""%string -> mood <> ""%string ->
  ls !! STORAGE_KEYS.USER = Some (stringify (user_record name email mood now_iso)) ->
  prefill form ls
  = Ok {| name_field := JStr name; email_field := JStr email;
          mood_field := JStr mood;
          notice := WelcomeBack (Some (JStr name)) (Some (JStr mood)) |}.
Proof.
  intros Hn He Hm H. unfold prefill.
  rewrite (load_stored _ _ _ (user_record name email mood now_iso));
    [|apply user_record_canonical|done].
  cbn [bind]. unfold user_record.
  change (truthy (JObj ?o)) with true. cbn iota.
  cbn [bind prop obj_get String.eqb Ascii.eqb Bool.eqb or_empty].
  by rewrite !truthy_JStr.
Qed.

Lemma prop_truthy v k : truthy v = true -> exists o, prop v k = Ok o.
Proof. destruct v; cbn; try done; eauto. Qed.

Lemma unconvertible_or_empty o : unconvertible (Some (or_empty o)) = unconvertible o.
Proof.
  destruct o as [v|]; [|done]. cbn [or_empty].
  destruct (truthy v) eqn:Et; [done|]. by destruct v.
Qed.

End PrefsFacts.

(** X3: a submit of the form either raises an alert with one of the
    three messages of the validator, or stores the preferences: then
    the trimmed name has two characters or more, the mood is not
    empty, a load of the preferences yields the record of the trimmed
    name, the trimmed email, the mood and the time, whatever
    preferences were stored before, and every other key of the storage
    is as it was. *)
Theorem submitPrefs_outcome (name email mood now_iso : string) (ls : LocalStorage) :
  (forall alert, submitPrefs name email mood now_iso ls = inl alert ->
     alert = name_message \/ alert = email_message \/ alert = mood_message) /\
  (forall ls', submitPrefs name email mood now_iso ls = inr ls' ->
     (2 <= String.length (trim name))%nat /\ mood <> ""%string /\
     loadFromStorage STORAGE_KEYS.USER JNull ls'
     = Ok (user_record (trim name) (trim email) mood now_iso) /\
     (forall key, key <> STORAGE_KEYS.USER -> ls' !! key = ls !! key)).
Proof.
  split.
  - intros alert. unfold submitPrefs.
    destruct (validateForm_message (trim name) (trim email) mood)
      as [[_ Hok] | [Hok Hmsg]]; rewrite Hok; cbn [negb]; [done|].
    intros [= <-]. destruct Hmsg as [-> | [-> | ->]]; cbn [default]; tauto.
  - intros ls' H. apply submitPrefs_inr in H as [Hok ->].
    apply accepted_fields in Hok as (Hlen & _ & _ & _ & Hmood).
    split; [done|]. split; [done|]. split.
    + apply load_save, user_record_canonical.
    + intros key Hkey. unfold saveToStorage. by apply lookup_insert_ne.
Qed.

Lemma submitPrefs_outcome_witness :
  loadFromStorage STORAGE_KEYS.USER JNull party_prefs
  = Ok (user_record "Al" "a@b.com" "party" "2024-05-01T10:00:00.000Z").
Proof.
  destruct (submitPrefs_outcome " Al " "a@b.com " "party"
              "2024-05-01T10:00:00.000Z" ∅) as (_ & H).
  destruct (H party_prefs) as (_ & _ & Hload & _); [reflexivity|].
  exact Hload.
Defined.

(** X4: the preferences page after a submit that got through: loaded
    again, it assigns to the three fields the trimmed name, the trimmed
    email and the mood that were submitted, and its notice welcomes
    back that name with that mood. *)
Theorem prefill_after_submit (name email mood now_iso : string)
    (ls ls' : LocalStorage) (form : PrefForm) :
  submitPrefs name email mood now_iso ls = inr ls' ->
  prefill form ls'
  = Ok {| name_field := JStr (trim name); email_field := JStr (trim email);
          mood_field := JStr mood;
          notice := WelcomeBack (Some (JStr (trim name))) (Some (JStr mood)) |}.
Proof.
  intros H. apply submitPrefs_inr in H as [Hok ->].
  apply accepted_fields in Hok as (_ & Hn & _ & He & Hm).
  apply (prefill_record _ _ _ _ _ now_iso); try done.
  unfold saveToStorage. apply lookup_insert_eq.
Qed.

Lemma prefill_after_submit_witness :
  prefill {| name_field := JStr ""; email_field := JStr "";
             mood_field := JStr ""; notice := NoticeHidden |} party_prefs
  = Ok {| name_field := JStr "Al"; email_field := JStr "a@b.com";
          mood_field := JStr "party";
          notice := WelcomeBack (Some (JStr "Al")) (Some (JStr "party")) |}.
Proof.
  apply (prefill_after_submit " Al " "a@b.com " "party"
           "2024-05-01T10:00:00.000Z" ∅ party_prefs).
  reflexivity.
Defined.

(** X5: the preferences page with stored preferences that the form did
    not write.  With nothing stored under the key the form stays as
    the page has it; with a text stored that is not empty and is
    malformed, filling the form throws SyntaxError; with a well-formed
    text, the form stays as it is when the value is falsy, and
    otherwise filling it throws TypeError exactly when the name, the
    email or the mood of the value cannot be converted to a string,
    and else assigns the three properties (the empty text for a falsy
    one) and welcomes the user back. *)
Theorem prefill_edge (form : PrefForm) (ls : LocalStorage) :
  (ls !! STORAGE_KEYS.USER = None -> prefill form ls = Ok form) /\
  (forall raw, ls !! STORAGE_KEYS.USER = Some raw -> raw <> ""%string ->
               in_fragment raw = true -> parse raw = None ->
               prefill form ls = Throw SyntaxError) /\
  (forall raw stored,
      ls !! STORAGE_KEYS.USER = Some raw -> raw <> ""%string ->
      in_fragment raw = true -> parse raw = Some stored ->
      (truthy stored = false -> prefill form ls = Ok form) /\
      (truthy stored = true ->
       exists n e m,
         prop stored "name" = Ok n /\ prop stored "email" = Ok e /\
         prop stored "mood" = Ok m /\
         prefill form ls
         = if unconvertible n || unconvertible e || unconvertible m
           then Throw TypeError
           else Ok {| name_field := or_empty n; email_field := or_empty e;
                      mood_field := or_empty m; notice := WelcomeBack n m |})).
Proof.
  split; [|split].
  - intros H. unfold prefill. by rewrite load_missing.
  - intros raw H Hne _ Hp. unfold prefill.
    by rewrite (load_refused _ _ _ raw).
  - intros raw stored H Hne _ Hp. unfold prefill.
    rewrite (load_parsed _ _ _ raw stored) by done. cbn [bind].
    split; intros Et; rewrite Et; [done|].
    destruct (prop_truthy stored "name" Et) as [n Hn].
    destruct (prop_truthy stored "email" Et) as [e He].
    destruct (prop_truthy stored "mood" Et) as [m Hm].
    exists n, e, m. rewrite Hn, He, Hm. cbn [bind].
    split; [done|]. split; [done|]. split; [done|].
    unfold ToString. rewrite !unconvertible_or_empty.
    by destruct (unconvertible n), (unconvertible e), (unconvertible m).
Qed.

Lemma prefill_edge_witness :
  prefill {| name_field := JStr "x"; email_field := JStr "";
             mood_field := JStr ""; notice := NoticeHidden |} ∅
  = Ok {| name_field := JStr "x"; email_field := JStr "";
          mood_field := JStr ""; notice := NoticeHidden |} /\
  prefill {| name_field := JStr "x"; email_field := JStr "";
             mood_field := JStr ""; notice := NoticeHidden |}
    {[ STORAGE_KEYS.USER := "{"%string ]}
  = Throw SyntaxError /\
  prefill {| name_field := JStr "x"; email_field := JStr "";
             mood_field := JStr ""; notice := NoticeHidden |}
    {[ STORAGE_KEYS.USER := "{ }"%string ]}
  = Ok {| name_field := JStr ""; email_field := JStr "";
          mood_field := JStr ""; notice := WelcomeBack None None |}.
Proof.
  split; [|split].
  - destruct (prefill_edge {| name_field := JStr "x"; email_field := JStr "";
                              mood_field := JStr ""; notice := NoticeHidden |} ∅)
      as (H & _).
    apply H, lookup_empty.
  - destruct (prefill_edge {| name_field := JStr "x"; email_field := JStr "";
                              mood_field := JStr ""; notice := NoticeHidden |}
                {[ STORAGE_KEYS.USER := "{"%string ]}) as (_ & H & _).
    apply (H "{"%string);
      [apply lookup_singleton_eq | discriminate | reflexivity | reflexivity].
  - destruct (prefill_edge {| name_field := JStr "x"; email_field := JStr "";
                              mood_field := JStr ""; notice := NoticeHidden |}
                {[ STORAGE_KEYS.USER := "{ }"%string ]}) as (_ & _ & H).
    destruct (H "{ }"%string (JObj []))
      as (_ & n & e & m & Hn & He & Hm & Hfill);
      [apply lookup_singleton_eq | discriminate | reflexivity | reflexivity
      | reflexivity |].
    apply Ok_inj in Hn, He, Hm. subst n e m. exact Hfill.
Defined.

(** X6: from the form to the suggestions.  After a submit that got
    through, the suggestions page lists exactly the songs of the
    catalog with the submitted mood, in catalog order, and starts with
    no track selected. *)
Theorem suggestions_after_submit (name email mood now_iso : string)
    (ls ls' : LocalStorage) (audio0 : Audio) (now0 : NowText) :
  submitPrefs name email mood now_iso ls = inr ls' ->
  initSuggestionsPage audio0 now0 ls'
  = Ok {| currentIndex := -1; audio := audio0; now := now0;
          songs := List.filter (fun s => String.eqb (Song.mood s) mood) SONGS |}.
Proof.
  intros H. apply submitPrefs_inr in H as [Hok ->].
  apply accepted_fields in Hok as (_ & _ & _ & _ & Hm).
  rewrite (init_with_prefs _ _ _ (trim name) (trim email) mood now_iso).
  - by destruct (String.eqb_spec mood "").
  - unfold saveToStorage. apply lookup_insert_eq.
Qed.

Lemma suggestions_after_submit_witness :
  initSuggestionsPage silent NowBlank party_prefs = Ok party_page.
Proof.
  apply (suggestions_after_submit " Al " "a@b.com " "party"
           "2024-05-01T10:00:00.000Z" ∅ party_prefs silent NowBlank).
  reflexivity.
Defined.

(** ** The mood counts *)

Section CountFacts.

Lemma songs_of_mood_snoc m l s :
  songs_of_mood m (l ++ [s])
  = songs_of_mood m l + (if String.eqb (Song.mood s) m then 1 else 0).
Proof.
  unfold songs_of_mood. rewrite List.filter_app, length_app. cbn [List.filter].
  destruct (String.eqb (Song.mood s) m); cbn [List.length]; lia.
Qed.

Lemma songs_of_mood_nonneg m l : 0 <= songs_of_mood m l.
Proof. unfold songs_of_mood. lia. Qed.

Lemma mood_counts_snoc l s : mood_counts (l ++ [s]) = count_mood (mood_counts l) s.
Proof. unfold mood_counts. by rewrite fold_left_app. Qed.

End CountFacts.

(** X7: the mood counts.  For a list of songs none of whose moods is
    the name of a property that every object inherits, the object that
    the reduction builds has, for every mood, the number of songs of
    that mood as its count, and no property for a mood that no song
    has. *)
Theorem mood_counts_correct (l : list Song.t) (m : string) :
  Forall (fun s => ~ In (Song.mood s) Object_prototype_names) l ->
  mood_counts l !! m
  = if songs_of_mood m l =? 0 then None else Some (Count (songs_of_mood m l)).
Proof.
  induction l as [|s l IH] using rev_ind; intros Hall; [done|].
  apply Forall_app in Hall as [Hl Hs]. apply Forall_cons in Hs as [Hs _].
  specialize (IH Hl). rewrite mood_counts_snoc, songs_of_mood_snoc.
  pose proof (songs_of_mood_nonneg m l) as Hm.
  pose proof (songs_of_mood_nonneg (Song.mood s) l) as Hms.
  assert (Hproto : String.eqb (Song.mood s) "__proto__" = false).
  { apply String.eqb_neq. intros E. apply Hs. rewrite E. cbn. tauto. }
  assert (Hinh : existsb (String.eqb (Song.mood s)) Object_prototype_names = false).
  { apply not_true_is_false. intros E. apply existsb_exists in E as (x & Hx & E).
    apply String.eqb_eq in E. subst x. by apply Hs. }
  unfold count_mood. rewrite Hproto.
  destruct (String.eqb_spec (Song.mood s) m) as [E|Hne].
  - rewrite E in *. rewrite IH.
    destruct (Z.eqb_spec (songs_of_mood m l) 0) as [E0|Hne0].
    + rewrite Hinh, lookup_insert_eq, E0. done.
    + rewrite lookup_insert_eq.
      destruct (Z.eqb_spec (songs_of_mood m l) 0); [lia|].
      destruct (Z.eqb_spec (songs_of_mood m l + 1) 0); [lia|]. done.
  - assert (Hsame : forall (acc : gmap string Tally) (t : Tally),
               <[Song.mood s := t]> acc !! m = acc !! m).
    { intros acc t. by apply lookup_insert_ne. }
    rewrite Z.add_0_r.
    destruct (mood_counts l !! Song.mood s) as [[n|]|];
      [| |destruct (existsb _ _)]; by rewrite Hsame, IH.
Qed.

Lemma mood_counts_correct_witness :
  moodCounts !! "chill"%string = Some (Count 2) /\
  moodCounts !! "party"%string = Some (Count 1) /\
  moodCounts !! "jazz"%string = None.
Proof.
  assert (Hall : Forall (fun s => ~ In (Song.mood s) Object_prototype_names) SONGS).
  { repeat constructor; cbn; intros H;
      repeat (destruct H as [H | H]; [discriminate|]); exact H. }
  split; [|split].
  - exact (mood_counts_correct SONGS "chill" Hall).
  - exact (mood_counts_correct SONGS "party" Hall).
  - exact (mood_counts_correct SONGS "jazz" Hall).
Defined.

(** ** The tips *)

Section TipsFacts.

Lemma filter_sublist {A : Type} (f : A -> bool) (l : list A) :
  sublist (List.filter f l) l.
Proof.
  induction l as [|x l IH]; [constructor|]. cbn [List.filter].
  destruct (f x); by constructor.
Qed.

Lemma filter_all {A : Type} (f : A -> bool) (l : list A) :
  Forall (fun x => f x = true) (List.filter f l).
Proof.
  induction l as [|x l IH]; [constructor|]. cbn [List.filter].
  destruct (f x) eqn:E; [by constructor|done].
Qed.

Lemma even_posts_typed (posts : list Post) :
  even_posts (map post_json posts)
  = Some (Ok (map post_json
                (List.filter (fun p => Z.rem (post_id p) 2 =? 0) posts))).
Proof.
  induction posts as [|p posts IH]; [done|].
  cbn [map even_posts List.filter]. rewrite IH.
  change (even_id (post_json p)) with (Some (Ok (Z.rem (post_id p) 2 =? 0))).
  by destruct (Z.rem (post_id p) 2 =? 0).
Qed.

Lemma tip_rows_typed (posts : list Post) :
  tip_rows (map tip_of (map post_json posts))
  = Ok (map (fun p => (Some (JStr (post_title p)), Some (JStr (post_body p)))) posts).
Proof.
  induction posts as [|p posts IH]; [done|].
  cbn [map tip_rows]. rewrite IH. reflexivity.
Qed.

Lemma even_posts_null (l : list json) :
  In JNull l -> exists e, even_posts l = Some (Throw e).
Proof.
  induction l as [|p l IH]; intros Hin; [done|]. cbn [even_posts].
  destruct (even_id p) as [[b|e]|] eqn:Hp; [| by exists e |].
  - destruct Hin as [->|Hin]; [done|].
    destruct (IH Hin) as [e ->]. by exists e.
  - destruct Hin as [->|Hin]; [done|].
    destruct (IH Hin) as [e ->]. by exists e.
Qed.

End TipsFacts.

(** X8: the tips.  When the request fails, the response is not ok,
    its body is no JSON text, its body is a value that is no array, or
    an array with [null] among its elements, the tips area says that
    the tips could not be loaded.  When the body is an array of posts
    with a number as id and texts as title and body, the tips area
    takes title and body of the first three posts that have an even id,
    in the order of the answer, or of all of them when there are fewer
    than three. *)
Theorem showTips_cases :
  showTips NetworkFailure = Some TipsUnavailable /\
  (forall data, showTips (Answer false data) = Some TipsUnavailable) /\
  showTips (Answer true None) = Some TipsUnavailable /\
  (forall v, (forall l, v <> JArr l) ->
     showTips (Answer true (Some v)) = Some TipsUnavailable) /\
  (forall l, In JNull l ->
     showTips (Answer true (Some (JArr l))) = Some TipsUnavailable) /\
  (forall posts : list Post,
     exists shown rest,
       showTips (Answer true (Some (JArr (map post_json posts))))
       = Some (TipsShown
                 (map (fun p => (Some (JStr (post_title p)),
                                 Some (JStr (post_body p)))) shown)) /\
       List.filter (fun p => Z.rem (post_id p) 2 =? 0) posts = shown ++ rest /\
       List.length shown
       = Nat.min 3 (List.length
                      (List.filter (fun p => Z.rem (post_id p) 2 =? 0) posts)) /\
       sublist shown posts /\
       Forall (fun p => Z.rem (post_id p) 2 = 0) shown).
Proof.
  split; [done|]. split; [done|]. split; [done|]. split; [|split].
  - intros v Hv. destruct v; try done. by destruct (Hv elems).
  - intros l Hnull. destruct (even_posts_null l Hnull) as [e He].
    unfold showTips, fetchTips. by rewrite He.
  - intros posts.
    set (even := List.filter (fun p => Z.rem (post_id p) 2 =? 0) posts).
    exists (firstn 3 even), (skipn 3 even). split; [|split; [|split; [|split]]].
    + unfold showTips, fetchTips. rewrite even_posts_typed. fold even.
      by rewrite !firstn_map, tip_rows_typed.
    + symmetry. apply firstn_skipn.
    + apply length_firstn.
    + transitivity even; [apply sublist_take | apply filter_sublist].
    + assert (Hall : Forall (fun p => Z.rem (post_id p) 2 = 0) even).
      { eapply Forall_impl; [apply filter_all|]. intros p Hp. cbn in Hp.
        by apply Z.eqb_eq. }
      by apply Forall_take.
Qed.

Lemma showTips_cases_witness :
  showTips (Answer true (Some (JObj []))) = Some TipsUnavailable /\
  showTips
    (Answer true
       (Some (JArr [JObj [("id", JNum 2); ("title", JStr "b")]%string; JNull])))
  = Some TipsUnavailable.
Proof.
  destruct showTips_cases as (_ & _ & _ & Hv & Hnull & _). split.
  - apply Hv. discriminate.
  - apply Hnull. right. by left.
Defined.

(** ** The player, further *)

Section PlayerMore.

Lemma catalog_lookup idx :
  0 <= idx < Z.of_nat (List.length SONGS) ->
  exists song, SONGS !! Z.to_nat idx = Some song.
Proof.
  intros H. apply lookup_lt_is_Some. change (List.length SONGS) with 5%nat in *. lia.
Qed.

Lemma playSongAtIndex_in_range idx st song :
  0 <= idx < Z.of_nat (List.length SONGS) ->
  SONGS !! Z.to_nat idx = Some song ->
  playSongAtIndex idx st
  = {| currentIndex := currentIndex st;
       audio := {| src := Song.url song; plays := S (plays (audio st)) |};
       now := NowPlaying (Song.title song) (Song.artist song);
       songs := songs st |}.
Proof.
  intros H Hsong. unfold playSongAtIndex.
  destruct (Z.ltb_spec idx 0); [lia|].
  destruct (Z.geb_spec idx (Z.of_nat (List.length SONGS))); [lia|].
  cbn [orb]. by rewrite Hsong.
Qed.

Lemma catalog_ids_unique song i :
  In song SONGS ->
  (findIndex (fun x => Song.id x =? Song.id song) SONGS = i ->
   SONGS !! Z.to_nat i = Some song).
Proof.
  intros Hin <-. cbn in Hin.
  repeat (destruct Hin as [<- | Hin]; [reflexivity|]). destruct Hin.
Qed.

End PlayerMore.

(** X9: [playSongAtIndex] and its bounds.  For an index below 0 or
    not below the length of the catalog nothing changes.  For an index
    into the catalog the source of the playback element becomes the
    address of that song, [play()] is called once more, the
    now-playing text shows its title and artist, and the player index
    and the list are as they were. *)
Theorem playSongAtIndex_bounds (idx : Z) (st : Suggestions) :
  (idx < 0 \/ Z.of_nat (List.length SONGS) <= idx -> playSongAtIndex idx st = st) /\
  (0 <= idx < Z.of_nat (List.length SONGS) ->
   exists song,
     SONGS !! Z.to_nat idx = Some song /\
     playSongAtIndex idx st
     = {| currentIndex := currentIndex st;
          audio := {| src := Song.url song; plays := S (plays (audio st)) |};
          now := NowPlaying (Song.title song) (Song.artist song);
          songs := songs st |}).
Proof.
  split.
  - intros H. unfold playSongAtIndex.
    destruct (Z.ltb_spec idx 0); [done|].
    destruct (Z.geb_spec idx (Z.of_nat (List.length SONGS))); [done|]. lia.
  - intros H. destruct (catalog_lookup idx H) as [song Hsong].
    exists song. split; [done|]. by apply playSongAtIndex_in_range.
Qed.

Lemma playSongAtIndex_bounds_witness :
  playSongAtIndex 5 party_page = party_page /\
  playSongAtIndex (-1) party_page = party_page /\
  src (audio (playSongAtIndex 4 party_page))
  = "https://www.soundhelix.com/examples/mp3/SoundHelix-Song-5.mp3"%string.
Proof.
  split; [|split].
  - destruct (playSongAtIndex_bounds 5 party_page) as (H & _).
    apply H. right. cbn. lia.
  - destruct (playSongAtIndex_bounds (-1) party_page) as (H & _).
    apply H. left. lia.
  - destruct (playSongAtIndex_bounds 4 party_page) as (_ & H).
    destruct H as (song & Hsong & ->); [cbn; lia|].
    cbn in Hsong. injection Hsong as <-. reflexivity.
Defined.

(** X10: what plays is what the index says.  After every play action
    on a suggestions page, the source of the playback element is the
    address of the song of the catalog at the player index, and the
    now-playing text shows the title and the artist of that song. *)
Theorem play_action_plays_current (ls : LocalStorage) (st st' : Suggestions) :
  page_of ls st -> play_step st st' ->
  exists song,
    SONGS !! Z.to_nat (currentIndex st') = Some song /\
    src (audio st') = Song.url song /\
    now st' = NowPlaying (Song.title song) (Song.artist song).
Proof.
  intros Hpage Hstep.
  assert (Hidx : 0 <= currentIndex st' < Z.of_nat (List.length SONGS)).
  { apply (play_step_index st st'); [|by apply (page_index ls)|done].
    intros song. by apply (page_songs ls). }
  destruct (catalog_lookup _ Hidx) as [song Hsong].
  exists song. split; [done|].
  assert (Hshape : exists i, st' = playSongAtIndex i (set_currentIndex i st)).
  { destruct Hstep; unfold clickPlay, onEnded, changeTrack; eauto. }
  destruct Hshape as [i ->].
  rewrite playSongAtIndex_index in Hidx, Hsong. cbn [set_currentIndex currentIndex] in *.
  rewrite (playSongAtIndex_in_range i _ song Hidx Hsong). done.
Qed.

Lemma play_action_plays_current_witness :
  exists song,
    SONGS !! Z.to_nat (currentIndex (changeTrack 1 party_page)) = Some song /\
    src (audio (changeTrack 1 party_page)) = Song.url song /\
    now (changeTrack 1 party_page) = NowPlaying (Song.title song) (Song.artist song).
Proof.
  apply (play_action_plays_current party_prefs party_page).
  - exists silent, NowBlank, party_page. split; [vm_compute; reflexivity|constructor].
  - apply play_next.
Defined.

(** X11: Play plays the song of its entry.  A click on Play of a
    listed song sets the source of the playback element to the address
    of that very song, shows its title and artist, and sets the player
    index to its position in the catalog. *)
Theorem clickPlay_plays_song (ls : LocalStorage) (st : Suggestions) (song : Song.t) :
  page_of ls st -> In song (songs st) ->
  SONGS !! Z.to_nat (currentIndex (clickPlay song st)) = Some song /\
  audio (clickPlay song st)
  = {| src := Song.url song; plays := S (plays (audio st)) |} /\
  now (clickPlay song st) = NowPlaying (Song.title song) (Song.artist song) /\
  songs (clickPlay song st) = songs st.
Proof.
  intros Hpage Hin.
  assert (Hcat : In song SONGS) by by apply (page_songs ls st).
  set (i := findIndex (fun x => Song.id x =? Song.id song) SONGS).
  assert (Hi : 0 <= i < Z.of_nat (List.length SONGS)).
  { apply (findIndex_found _ SONGS song); [done | apply Z.eqb_refl]. }
  assert (Hsong : SONGS !! Z.to_nat i = Some song)
    by by apply (catalog_ids_unique song i).
  unfold clickPlay. fold i.
  rewrite (playSongAtIndex_in_range i _ song Hi Hsong).
  cbn [currentIndex audio now songs set_currentIndex]. done.
Qed.

Lemma clickPlay_plays_song_witness :
  audio (clickPlay neon_party party_page)
  = {| src := Song.url neon_party; plays := 1 |}.
Proof.
  apply (clickPlay_plays_song party_prefs party_page neon_party).
  - exists silent, NowBlank, party_page. split; [vm_compute; reflexivity|constructor].
  - left. reflexivity.
Defined.

(** X12: Prev undoes Next.  On a suggestions page with a track
    selected, Next and then Prev, and Prev and then Next, lead back to
    the same player index, and so do five times Next; with no track
    selected, Next and then Prev lead to the last song of the
    catalog. *)
Theorem changeTrack_round_trip (ls : LocalStorage) (st : Suggestions) :
  page_of ls st ->
  (currentIndex st <> -1 ->
   currentIndex (changeTrack (-1) (changeTrack 1 st)) = currentIndex st /\
   currentIndex (changeTrack 1 (changeTrack (-1) st)) = currentIndex st /\
   currentIndex (Nat.iter 5 (changeTrack 1) st) = currentIndex st) /\
  (currentIndex st = -1 ->
   currentIndex (changeTrack (-1) (changeTrack 1 st)) = 4).
Proof.
  intros Hpage. pose proof (page_index ls st Hpage) as Hidx.
  change (Z.of_nat (List.length SONGS)) with 5 in Hidx.
  change (Nat.iter 5 (changeTrack 1) st)
    with (changeTrack 1 (changeTrack 1 (changeTrack 1 (changeTrack 1
            (changeTrack 1 st))))).
  rewrite !changeTrack_index.
  split.
  - intros Hset.
    assert (Hcases : currentIndex st = 0 \/ currentIndex st = 1 \/
                     currentIndex st = 2 \/ currentIndex st = 3 \/
                     currentIndex st = 4) by lia.
    destruct Hcases as [-> | [-> | [-> | [-> | ->]]]]; repeat split.
  - by intros ->.
Qed.

Lemma changeTrack_round_trip_witness :
  currentIndex (changeTrack (-1) (changeTrack 1 (clickPlay neon_party party_page))) = 2 /\
  currentIndex (changeTrack (-1) (changeTrack 1 party_page)) = 4.
Proof.
  assert (H0 : page_of party_prefs party_page).
  { exists silent, NowBlank, party_page. split; [vm_compute; reflexivity|constructor]. }
  assert (H1 : page_of party_prefs (clickPlay neon_party party_page)).
  { exists silent, NowBlank, party_page. split; [vm_compute; reflexivity|].
    apply rtc_once. apply play_click. left. reflexivity. }
  split.
  - destruct (changeTrack_round_trip party_prefs _ H1) as (H & _).
    destruct H as (H & _); [discriminate|]. exact H.
  - destruct (changeTrack_round_trip party_prefs _ H0) as (_ & H).
    apply H. reflexivity.
Defined.

(** ** The saved list, further *)

Section SavedMore.

Lemma without_fresh id l e :
  id ∉ map saved_id l -> saved_id e = id -> without id (l ++ [e]) = l.
Proof.
  intros Hfresh He. unfold without. rewrite List.filter_app. cbn [List.filter].
  rewrite He, Z.eqb_refl. cbn [negb]. rewrite app_nil_r.
  induction l as [|x l IH]; [done|]. cbn [map] in Hfresh.
  apply not_elem_of_cons in Hfresh as [Hne Hfresh].
  cbn [List.filter]. destruct (Z.eqb_spec (saved_id x) id) as [E|_]; [by symmetry in E|].
  cbn [negb]. f_equal. by apply IH.
Qed.

Lemma persisted_other_keys (ls ls' : LocalStorage) l :
  ls' !! STORAGE_KEYS.SAVED = ls !! STORAGE_KEYS.SAVED ->
  persisted ls l -> persisted ls' l.
Proof. unfold persisted, loadFromStorage. by intros ->. Qed.

Lemma save_all_persisted clicks :
  forall (ls : LocalStorage) l,
    persisted ls l ->
    NoDup (map saved_id l ++ map (fun c => Song.id (fst c)) clicks) ->
    exists ls',
      save_all clicks ls = Ok ls' /\
      persisted ls'
        (l ++ map (fun c => {| saved_song := fst c; savedAt := snd c |}) clicks) /\
      (forall key, key <> STORAGE_KEYS.SAVED -> ls' !! key = ls !! key).
Proof.
  induction clicks as [|[song now_iso] clicks IH]; intros ls l Hp Hnd.
  { exists ls. cbn. by rewrite app_nil_r. }
  cbn [map fst] in Hnd.
  assert (Hfresh : Song.id song ∉ map saved_id l).
  { apply NoDup_app in Hnd as (_ & Hnd & _). intros Hin.
    apply (Hnd _ Hin). by left. }
  assert (E : existsb (fun e => saved_id e =? Song.id song) l = false).
  { apply not_true_is_false. intros E. by apply existsb_saved_id in E. }
  cbn [save_all]. rewrite (saveSong_persisted ls l song now_iso Hp), E. cbn [bind].
  set (e := {| saved_song := song; savedAt := now_iso |}).
  set (ls1 := saveToStorage STORAGE_KEYS.SAVED (saved_array (l ++ [e])) ls).
  destruct (IH ls1 (l ++ [e])) as (ls' & Hsave & Hp' & Hkeys).
  { apply persisted_save. }
  { rewrite map_app, <- app_assoc. exact Hnd. }
  exists ls'. split; [done|]. split.
  - cbn [map fst snd]. fold e. by rewrite <- app_assoc in Hp'.
  - intros key Hkey. rewrite (Hkeys key Hkey).
    unfold ls1, saveToStorage. by apply lookup_insert_ne.
Qed.

Lemma render_item_cases saved i x :
  (exists li, render_item saved i x = Ok li /\ x <> JNull) \/
  render_item saved i x = Throw TypeError.
Proof.
  unfold render_item, ToString.
  destruct x; cbn [prop bind]; try (by right);
    repeat match goal with
           | |- context [unconvertible ?o] => destruct (unconvertible o); cbn [bind]
           end;
    first [by right | left; eexists; split; [reflexivity|discriminate]].
Qed.

Lemma render_items_null saved l :
  forall i, In JNull l -> array_map (render_item saved) i l = Throw TypeError.
Proof.
  induction l as [|x l IH]; intros i Hin; [done|].
  cbn [array_map].
  destruct (render_item_cases saved i x) as [(li & -> & Hx) | ->]; [|done].
  cbn [bind]. destruct Hin as [->|Hin]; [done|]. by rewrite IH.
Qed.

End SavedMore.

(** X13: the saved list is in the order of the saves.  Calls of
    [saveSong] for Catalog songs whose ids are pairwise different, and
    different from the ids already saved, all return; the saved list
    is the earlier list followed by one entry per call, in the order
    of the calls, each with the fields of its song and the time of its
    call; the profile page shows exactly these entries in this order,
    row by row the title, artist, mood, address and id of the entry;
    and no other key of the storage changes. *)
Theorem save_all_in_order (calls : list (Song.t * string)) (ls : LocalStorage)
    (l : list SavedSong) :
  persisted ls l -> of_catalog l ->
  Forall (fun c => In (fst c) SONGS) calls ->
  NoDup (map saved_id l ++ map (fun c => Song.id (fst c)) calls) ->
  exists ls' view,
    save_all calls ls = Ok ls' /\
    persisted ls'
      (l ++ map (fun c => {| saved_song := fst c; savedAt := snd c |}) calls) /\
    renderSavedSongs ls' = Ok view /\
    view_shows view
      (l ++ map (fun c => {| saved_song := fst c; savedAt := snd c |}) calls) /\
    displayed view
    = map saved_entry
        (l ++ map (fun c => {| saved_song := fst c; savedAt := snd c |}) calls) /\
    (forall key, key <> STORAGE_KEYS.SAVED -> ls' !! key = ls !! key).
Proof.
  intros Hp _ _ Hnd.
  destruct (save_all_persisted calls ls l Hp Hnd) as (ls' & Hsave & Hp' & Hkeys).
  pose proof (render_persisted ls' _ Hp') as Hrender.
  eexists ls', _. split; [done|]. split; [done|]. split; [exact Hrender|].
  split; [by apply (view_persisted ls')|].
  split; [|done]. by apply (displayed_persisted ls').
Qed.

Lemma save_all_in_order_witness :
  exists ls' view,
    save_all [(saved_song saved_neon, savedAt saved_neon);
              (saved_song saved_calm, savedAt saved_calm)] ∅ = Ok ls' /\
    persisted ls' [saved_neon; saved_calm] /\
    renderSavedSongs ls' = Ok view /\
    view_shows view [saved_neon; saved_calm] /\
    displayed view = [saved_entry saved_neon; saved_entry saved_calm].
Proof.
  destruct (save_all_in_order
              [(saved_song saved_neon, savedAt saved_neon);
               (saved_song saved_calm, savedAt saved_calm)] ∅ [])
    as (ls' & view & H1 & H2 & H3 & H4 & H5 & _).
  - apply load_missing, lookup_empty.
  - constructor.
  - constructor; [right; right; left; reflexivity|].
    constructor; [left; reflexivity | constructor].
  - cbn. apply NoDup_cons. split; [|apply NoDup_singleton].
    intros H. apply list_elem_of_singleton in H. discriminate.
  - exists ls', view. repeat split; assumption.
Defined.

(** X14: when [saveSong] throws.  With a text stored under the
    saved-songs key that is not empty and is malformed, [saveSong]
    throws SyntaxError; with a well-formed stored text whose value is
    no array it throws TypeError; with the key missing or the text
    empty it stores a list of one entry.  The stored texts are those
    on which [parse] stands for [JSON.parse]. *)
Theorem saveSong_errors (song : Song.t) (now_iso : string) (ls : LocalStorage) :
  (forall raw, ls !! STORAGE_KEYS.SAVED = Some raw -> raw <> ""%string ->
               in_fragment raw = true -> parse raw = None ->
               saveSong song now_iso ls = Throw SyntaxError) /\
  (forall raw v, ls !! STORAGE_KEYS.SAVED = Some raw -> raw <> ""%string ->
                 in_fragment raw = true -> parse raw = Some v ->
                 (forall l, v <> JArr l) ->
                 saveSong song now_iso ls = Throw TypeError) /\
  (ls !! STORAGE_KEYS.SAVED = None \/ ls !! STORAGE_KEYS.SAVED = Some ""%string ->
   exists ls',
     saveSong song now_iso ls = Ok ls' /\
     persisted ls' [{| saved_song := song; savedAt := now_iso |}]).
Proof.
  split; [|split].
  - intros raw H Hne _ Hp. unfold saveSong.
    by rewrite (load_refused _ _ _ raw).
  - intros raw v H Hne _ Hp Harr. unfold saveSong.
    rewrite (load_parsed _ _ _ raw v) by done. cbn [bind].
    destruct v; try done. by destruct (Harr elems).
  - intros H.
    assert (Hp : persisted ls []).
    { unfold persisted, loadFromStorage. by destruct H as [-> | ->]. }
    rewrite (saveSong_persisted ls [] song now_iso Hp). cbn [existsb app].
    eexists. split; [done|]. apply persisted_save.
Qed.

Lemma saveSong_errors_witness :
  saveSong neon_party "2024-05-01T10:00:00.000Z"
    {[ STORAGE_KEYS.SAVED := "[1,"%string ]} = Throw SyntaxError /\
  saveSong neon_party "2024-05-01T10:00:00.000Z"
    {[ STORAGE_KEYS.SAVED := "null"%string ]} = Throw TypeError /\
  exists ls',
    saveSong neon_party "2024-05-01T10:00:00.000Z" ∅ = Ok ls' /\
    persisted ls' [saved_neon].
Proof.
  split; [|split].
  - destruct (saveSong_errors neon_party "2024-05-01T10:00:00.000Z"
                {[ STORAGE_KEYS.SAVED := "[1,"%string ]}) as (H & _).
    apply (H "[1,"%string);
      [apply lookup_singleton_eq | discriminate | reflexivity | reflexivity].
  - destruct (saveSong_errors neon_party "2024-05-01T10:00:00.000Z"
                {[ STORAGE_KEYS.SAVED := "null"%string ]}) as (_ & H & _).
    apply (H "null"%string JNull);
      [apply lookup_singleton_eq | discriminate | reflexivity | reflexivity
      | discriminate].
  - destruct (saveSong_errors neon_party "2024-05-01T10:00:00.000Z" ∅)
      as (_ & _ & H).
    apply H. left. apply lookup_empty.
Defined.

(** X15: Remove undoes Save.  After [saveSong] for a song whose id is
    not in the saved list, the profile page has a Remove button for
    that id, and a click on it leads back to the saved list as it was,
    on the page as in the storage. *)
Theorem remove_after_save (ls : LocalStorage) (l : list SavedSong)
    (song : Song.t) (now_iso : string) :
  persisted ls l -> Song.id song ∉ map saved_id l ->
  exists ls1 lis,
    saveSong song now_iso ls = Ok ls1 /\
    renderSavedSongs ls1 = Ok (Items lis) /\
    (exists li, In li lis /\ item_id li = Some (JNum (Song.id song))) /\
    forall li, In li lis -> item_id li = Some (JNum (Song.id song)) ->
      exists ls2 view,
        clickRemove li ls1 = Ok (ls2, view) /\
        persisted ls2 l /\
        displayed view = map saved_entry l.
Proof.
  intros Hp Hfresh.
  set (e := {| saved_song := song; savedAt := now_iso |}).
  assert (E : existsb (fun x => saved_id x =? Song.id song) l = false).
  { apply not_true_is_false. intros E. by apply existsb_saved_id in E. }
  set (ls1 := saveToStorage STORAGE_KEYS.SAVED (saved_array (l ++ [e])) ls).
  assert (Hp1 : persisted ls1 (l ++ [e])) by apply persisted_save.
  pose proof (render_persisted ls1 _ Hp1) as Hrender.
  exists ls1, (saved_items (map saved_entry (l ++ [e])) 0 (l ++ [e])).
  split; [by rewrite (saveSong_persisted ls l song now_iso Hp), E|].
  split; [destruct (l ++ [e]) eqn:El; [by destruct l|exact Hrender]|].
  split.
  { destruct (saved_items_of (map saved_entry (l ++ [e])) 0%nat (l ++ [e]) e)
      as (li & Hli & _ & Hid); [apply in_or_app; right; by left|].
    by exists li. }
  intros li Hli Hid.
  apply saved_items_in in Hli as (e' & _ & Hs & Hid' & Hsaved).
  assert (Hsame : saved_id e' = Song.id song) by congruence.
  destruct (clickRemove_persisted ls1 (l ++ [e]) li e' Hs Hsaved)
    as (view & Hclick & Hview & Hp2).
  rewrite Hsame in *. rewrite (without_fresh (Song.id song) l e Hfresh eq_refl) in *.
  eexists _, view. split; [exact Hclick|]. split; [exact Hp2|].
  by apply (displayed_persisted _ l view Hp2).
Qed.

Lemma remove_after_save_witness :
  exists ls1 lis,
    saveSong neon_party "2024-05-01T10:00:00.000Z" party_prefs = Ok ls1 /\
    renderSavedSongs ls1 = Ok (Items lis) /\
    forall li, In li lis -> item_id li = Some (JNum 3) ->
      exists ls2 view,
        clickRemove li ls1 = Ok (ls2, view) /\ persisted ls2 [] /\ displayed view = [].
Proof.
  destruct (remove_after_save party_prefs [] neon_party "2024-05-01T10:00:00.000Z")
    as (ls1 & lis & H1 & H2 & _ & H3).
  - apply load_missing. unfold party_prefs, saveToStorage.
    rewrite lookup_insert_ne by discriminate. apply lookup_empty.
  - apply not_elem_of_nil.
  - exists ls1, lis. split; [exact H1|]. split; [exact H2|]. exact H3.
Defined.

(** X16: what [renderSavedSongs] makes of a stored value that is no
    list of songs.  For an empty array, the empty text and an object
    whose [length] is 0 it shows the placeholder.  For an array with a
    [null] among its elements, for a stored [null], number or boolean,
    for a text that is not empty and for an object whose [length] is
    not 0, it throws TypeError.  The stored texts are those on which
    [parse] stands for [JSON.parse]. *)
Theorem renderSavedSongs_stored (ls : LocalStorage) (raw : string) (v : json) :
  ls !! STORAGE_KEYS.SAVED = Some raw -> raw <> ""%string ->
  in_fragment raw = true -> parse raw = Some v ->
  (v = JArr [] \/ v = JStr "" \/
   (exists o, v = JObj o /\ obj_get "length" o = Some (JNum 0)) ->
   renderSavedSongs ls = Ok Placeholder) /\
  (forall l, v = JArr l -> In JNull l -> renderSavedSongs ls = Throw TypeError) /\
  (v = JNull \/ (exists n, v = JNum n) \/ (exists b, v = JBool b) \/
   (exists s, v = JStr s /\ s <> ""%string) \/
   (exists o, v = JObj o /\ obj_get "length" o <> Some (JNum 0)) ->
   renderSavedSongs ls = Throw TypeError).
Proof.
  intros H Hne _ Hp.
  unfold renderSavedSongs. rewrite (load_parsed _ _ _ raw v) by done. cbn [bind].
  split; [|split].
  - intros [-> | [-> | (o & -> & Hlen)]]; [done|done|]. by rewrite Hlen.
  - intros l -> Hnull. destruct l as [|x l]; [done|].
    cbn [List.length Z.of_nat].
    change (Z.pos (Pos.of_succ_nat (List.length l)) =? 0) with false.
    cbn iota. by rewrite render_items_null.
  - intros [-> | [[n ->] | [[b ->] | [(s & -> & Hs) | (o & -> & Hlen)]]]];
      try done.
    + by destruct (String.eqb_spec s "").
    + destruct (obj_get "length" o) as [[| |n| | |]|]; try done.
      cbn [strict_eq]. destruct (Z.eqb_spec n 0) as [->|_]; done.
Qed.

Lemma renderSavedSongs_stored_witness :
  renderSavedSongs {[ STORAGE_KEYS.SAVED := "[]"%string ]} = Ok Placeholder /\
  renderSavedSongs {[ STORAGE_KEYS.SAVED := "[null]"%string ]} = Throw TypeError /\
  renderSavedSongs {[ STORAGE_KEYS.SAVED := "7"%string ]} = Throw TypeError.
Proof.
  split; [|split].
  - destruct (renderSavedSongs_stored {[ STORAGE_KEYS.SAVED := "[]"%string ]}
                "[]" (JArr [])) as (H & _);
      [apply lookup_singleton_eq | discriminate | reflexivity | reflexivity |].
    apply H. by left.
  - destruct (renderSavedSongs_stored {[ STORAGE_KEYS.SAVED := "[null]"%string ]}
                "[null]" (JArr [JNull])) as (_ & H & _);
      [apply lookup_singleton_eq | discriminate | reflexivity | reflexivity |].
    apply (H [JNull]); [reflexivity | by left].
  - destruct (renderSavedSongs_stored {[ STORAGE_KEYS.SAVED := "7"%string ]}
                "7" (JNum 7)) as (_ & _ & H);
      [apply lookup_singleton_eq | discriminate | reflexivity | reflexivity |].
    apply H. right. left. by exists 7.
Defined.

(** ** The link handler, further *)

Section LinkFacts.

Lemma findIndex_some {A : Type} (p : A -> bool) (l : list A) :
  findIndex p l <> -1 -> exists x, In x l /\ p x = true.
Proof.
  induction l as [|y l IH]; [done|]. cbn [findIndex].
  destruct (p y) eqn:Ey; [intros _; exists y; split; [by left|done]|].
  destruct (Z.eqb_spec (findIndex p l) (-1)) as [|Hne]; [done|]. intros _.
  destruct (IH Hne) as (x & Hx & Hp). exists x. split; [by right|done].
Qed.

Lemma attemptPlay_catalog song dom audioEl :
  In song SONGS -> dom_audio dom = Some audioEl ->
  dom_audio (attemptPlay (String_of_number (Song.id song)) dom)
  = Some {| src := Song.url song; plays := S (plays audioEl) |}.
Proof.
  intros Hin Haudio. destruct dom as [a n]. cbn [dom_audio] in Haudio. subst a.
  cbn in Hin.
  repeat (destruct Hin as [<- | Hin]; [vm_compute; reflexivity|]). destruct Hin.
Qed.

Lemma attemptPlay_no_audio playId dom :
  dom_audio dom = None -> attemptPlay playId dom = dom.
Proof.
  intros H. unfold attemptPlay. rewrite H. by destruct (negb _).
Qed.

End LinkFacts.

(** X17: when the link handler does something.  The delayed attempt
    changes the document exactly when the page was opened with a query,
    the [play] parameter is present and not empty, it is the id of a
    song of the catalog, and the page has a playback element; in every
    other case, a page without playback element among them, the
    document stays as it is. *)
Theorem autoPlay_fires (search : string) (play_param : option string) (dom : Dom) :
  autoPlay search play_param dom <> dom <->
  search <> ""%string /\
  exists playId song audioEl,
    play_param = Some playId /\ playId <> ""%string /\
    In song SONGS /\ String_of_number (Song.id song) = playId /\
    dom_audio dom = Some audioEl.
Proof.
  unfold autoPlay, checkAutoPlayOnLoad. split.
  - intros Hchange.
    destruct (String.eqb_spec search "") as [->|Hsearch]; [done|].
    destruct play_param as [playId|]; [|done].
    destruct (String.eqb_spec playId "") as [->|HplayId]; [done|].
    split; [done|].
    destruct (dom_audio dom) as [audioEl|] eqn:Haudio;
      [|by rewrite attemptPlay_no_audio in Hchange].
    assert (Hidx : findIndex
                     (fun s => String.eqb (String_of_number (Song.id s)) playId)
                     SONGS <> -1).
    { intros E. apply Hchange. unfold attemptPlay. by rewrite E. }
    apply findIndex_some in Hidx as (song & Hin & Heq).
    apply String.eqb_eq in Heq.
    by exists playId, song, audioEl.
  - intros (Hsearch & playId & song & audioEl & -> & HplayId & Hin & <- & Haudio).
    destruct (String.eqb_spec search "") as [|_]; [done|].
    destruct (String.eqb_spec (String_of_number (Song.id song)) "") as [|_]; [done|].
    intros E. pose proof (attemptPlay_catalog song dom audioEl Hin Haudio) as H.
    rewrite E, Haudio in H. injection H as H.
    apply (f_equal plays) in H. cbn in H. lia.
Qed.

Lemma autoPlay_fires_witness :
  autoPlay "?play=3" (Some "3"%string) (suggestions_dom party_page)
  <> suggestions_dom party_page.
Proof.
  apply (autoPlay_fires "?play=3" (Some "3"%string) (suggestions_dom party_page)).
  split; [discriminate|].
  exists "3"%string, neon_party, silent.
  split; [reflexivity|]. split; [discriminate|]. split; [vm_compute; tauto|].
  split; reflexivity.
Defined.

(** X18: the link handler does not select a track.  On the
    suggestions page the delayed attempt leaves the player index and
    the list of songs as they are; so on a page on which no track was
    selected, the first Next after it plays the first song of the
    catalog, whichever song the link named. *)
Theorem autoPlay_leaves_index (search : string) (play_param : option string)
    (st : Suggestions) :
  currentIndex (autoPlayOnPage search play_param st) = currentIndex st /\
  songs (autoPlayOnPage search play_param st) = songs st /\
  (currentIndex st = -1 ->
   currentIndex (changeTrack 1 (autoPlayOnPage search play_param st)) = 0 /\
   forall first rest, SONGS = first :: rest ->
     src (audio (changeTrack 1 (autoPlayOnPage search play_param st)))
     = Song.url first).
Proof.
  split; [done|]. split; [done|]. intros Hunset.
  unfold changeTrack. cbn [autoPlayOnPage currentIndex]. rewrite Hunset.
  change (-1 =? -1) with true. cbn iota.
  split; [by rewrite playSongAtIndex_index|].
  intros first rest E. injection E as <- _. reflexivity.
Qed.

Lemma autoPlay_leaves_index_witness :
  currentIndex (changeTrack 1 (autoPlayOnPage "?play=3" (Some "3"%string) party_page))
  = 0.
Proof.
  destruct (autoPlay_leaves_index "?play=3" (Some "3"%string) party_page)
    as (_ & _ & H).
  destruct H as (H & _); [reflexivity | exact H].
Defined.

(** ** Loading a page *)

Section LoadFacts.

Lemma step_user (ls ls' : LocalStorage) :
  step ls ls' ->
  ls' !! STORAGE_KEYS.USER = ls !! STORAGE_KEYS.USER \/
  exists name email mood now_iso,
    ls' !! STORAGE_KEYS.USER = Some (stringify (user_record name email mood now_iso)).
Proof.
  intros [name email mood now_iso ls0 ls1 H
         | song now_iso ls0 ls1 H
         | ls0 lis li ls1 view Hrender Hin H
         | ls0 ls1 view H].
  - right. apply submitPrefs_inr in H as [_ ->].
    eexists _, _, _, _. unfold saveToStorage. apply lookup_insert_eq.
  - left. unfold saveSong in H.
    destruct (loadFromStorage _ _ ls0) as [[| | | |l|]|]; try done. cbn [bind] in H.
    destruct (array_some _ l) as [[]|]; try done; cbn [bind] in H;
      injection H as <-; [done|].
    unfold saveToStorage. by apply lookup_insert_ne.
  - left. unfold clickRemove in H.
    destruct (array_filter _ _ _) as [remaining|]; [|done]. cbn [bind] in H.
    destruct (renderSavedSongs (saveToStorage _ _ ls0)) as [v|]; [|done].
    cbn [bind] in H. injection H as <- _.
    unfold saveToStorage. by apply lookup_insert_ne.
  - left. unfold clickClear in H.
    destruct (renderSavedSongs (delete _ ls0)) as [v|]; [|done].
    cbn [bind] in H. injection H as <- _.
    by apply lookup_delete_ne.
Qed.

Lemma produced_well_kept ls : produced ls -> well_kept ls.
Proof.
  induction 1 as [ls Huser Hsaved|ls ls' _ [Huser (l & Hp & Hnd)] Hstep].
  - split; [by left|]. exists []. split; [by apply load_missing|apply NoDup_nil_2].
  - split.
    + destruct (step_user ls ls' Hstep) as [E|E]; [by rewrite E|by right].
    + by apply (step_unique ls ls' l).
Qed.

Lemma prefill_well_kept form ls :
  well_kept ls -> exists form', prefill form ls = Ok form'.
Proof.
  intros [[H | (name & email & mood & now_iso & H)] _]; unfold prefill.
  - rewrite load_missing by done. eauto.
  - rewrite (load_stored _ _ _ (user_record name email mood now_iso));
      [|apply user_record_canonical|done].
    cbn [bind user_record truthy prop obj_get String.eqb Ascii.eqb Bool.eqb].
    unfold ToString. rewrite !unconvertible_or_empty. cbn. eauto.
Qed.

End LoadFacts.

(** X19: the script can read what it wrote.  Starting from a storage
    that holds neither record, after any sequence of submits, saves,
    removals and clear-alls, the load handler of every page returns
    without throwing: a form on the page is filled, the suggestions
    page is set up without error, and a saved list on the page is
    rendered. *)
Theorem page_load_never_throws (ls : LocalStorage) (doc : Document)
    (audio0 : Audio) (now0 : NowText) :
  produced ls ->
  exists loaded,
    onDOMContentLoaded doc audio0 now0 ls = Ok loaded /\
    (doc_prefForm doc <> None -> loaded_form loaded <> None) /\
    (doc_songs doc = true -> exists st, loaded_suggestions loaded = Some (Ok st)) /\
    (doc_savedList doc = true -> exists view, loaded_saved loaded = Some view).
Proof.
  intros Hprod.
  destruct (produced_well_kept ls Hprod) as [Huser (l & Hp & Hnd)].
  assert (Hinit : exists st, initSuggestionsPage audio0 now0 ls = Ok st).
  { destruct Huser as [H | (name & email & mood & now_iso & H)].
    - rewrite init_without_prefs by done. eauto.
    - rewrite (init_with_prefs _ _ _ name email mood now_iso) by done. eauto. }
  destruct Hinit as [st Hinit].
  pose proof (render_persisted ls l Hp) as Hrender.
  unfold onDOMContentLoaded. rewrite Hinit, Hrender.
  destruct (doc_prefForm doc) as [form0|].
  - destruct (prefill_well_kept form0 ls) as [form ->].
    { split; [done|]. by exists l. }
    cbn [bind]. destruct (doc_songs doc), (doc_savedList doc); cbn [bind];
      eexists; (split; [reflexivity|]); cbn; repeat split; try done; eauto.
  - cbn [bind]. destruct (doc_songs doc), (doc_savedList doc); cbn [bind];
      eexists; (split; [reflexivity|]); cbn; repeat split; try done; eauto.
Qed.

Lemma page_load_never_throws_witness :
  exists loaded,
    onDOMContentLoaded
      {| doc_prefForm := None; doc_songs := true; doc_savedList := false |}
      silent NowBlank party_prefs = Ok loaded /\
    exists st, loaded_suggestions loaded = Some (Ok st).
Proof.
  destruct (page_load_never_throws party_prefs
              {| doc_prefForm := None; doc_songs := true; doc_savedList := false |}
              silent NowBlank) as (loaded & Hload & _ & Hsongs & _).
  - apply (produced_step ∅ party_prefs).
    + apply produced_clean; apply lookup_empty.
    + apply (step_submit " Al " "a@b.com " "party" "2024-05-01T10:00:00.000Z").
      reflexivity.
  - exists loaded. split; [exact Hload|]. apply Hsongs. reflexivity.
Defined.

(** X20: a malformed text in the storage.  On a page with the form,
    malformed preferences make the load handler throw SyntaxError
    before the submit listener is attached.  On a page with only the
    list of suggestions the handler returns, and it is
    [initSuggestionsPage] that fails with SyntaxError.  On a page with
    only the saved list, a malformed saved text makes the handler
    throw SyntaxError before the listener of the clear-all control is
    attached.  The stored texts are those on which [parse] stands for
    [JSON.parse]. *)
Theorem page_load_malformed (ls : LocalStorage) (doc : Document)
    (audio0 : Audio) (now0 : NowText) (raw : string) :
  raw <> ""%string -> in_fragment raw = true -> parse raw = None ->
  (ls !! STORAGE_KEYS.USER = Some raw ->
   (doc_prefForm doc <> None ->
    onDOMContentLoaded doc audio0 now0 ls = Throw SyntaxError) /\
   (doc_prefForm doc = None -> doc_songs doc = true -> doc_savedList doc = false ->
    onDOMContentLoaded doc audio0 now0 ls
    = Ok {| loaded_form := None;
            loaded_suggestions := Some (Throw SyntaxError);
            loaded_saved := None |})) /\
  (ls !! STORAGE_KEYS.SAVED = Some raw ->
   doc_prefForm doc = None -> doc_savedList doc = true ->
   onDOMContentLoaded doc audio0 now0 ls = Throw SyntaxError).
Proof.
  intros Hne _ Hp.
  assert (Hload : forall key fallback,
             ls !! key = Some raw -> loadFromStorage key fallback ls = Throw SyntaxError).
  { intros key fallback H. by apply (load_refused _ _ _ raw). }
  split.
  - intros H. split.
    + intros Hform. unfold onDOMContentLoaded.
      destruct (doc_prefForm doc) as [form0|]; [|done].
      unfold prefill. by rewrite Hload.
    + intros Hform Hsongs Hsaved. unfold onDOMContentLoaded.
      rewrite Hform, Hsongs, Hsaved. cbn [bind].
      unfold initSuggestionsPage. by rewrite Hload.
  - intros H Hform Hsaved. unfold onDOMContentLoaded.
    rewrite Hform, Hsaved. cbn [bind]. unfold renderSavedSongs. by rewrite Hload.
Qed.

Lemma page_load_malformed_witness :
  onDOMContentLoaded
    {| doc_prefForm := None; doc_songs := false; doc_savedList := true |}
    silent NowBlank {[ STORAGE_KEYS.SAVED := "[1,"%string ]}
  = Throw SyntaxError.
Proof.
  destruct (page_load_malformed {[ STORAGE_KEYS.SAVED := "[1,"%string ]}
              {| doc_prefForm := None; doc_songs := false; doc_savedList := true |}
              silent NowBlank "[1,") as (_ & H);
    [discriminate | reflexivity | reflexivity |].
  apply H; [apply lookup_singleton_eq | reflexivity | reflexivity].
Defined.
